(** * QA-Prolog: the Prolog-to-Verilog lowering, embedded in Rocq

    A shallow embedding of the preprocessing pass (tree walks and the
    validator) and of [verilog.go] (identifier encoder, expression lowerer,
    clause and clause-group compilers, program emitter), followed by the
    properties that the design document states about them.

    Conventions of the embedding:
    - Go [int] values are [Z]; list positions are [nat], converted with
      [Z.of_nat] where the code formats or encodes them.
    - Go [string]s are [string]s (sequences of bytes); [a[0]] is the first
      byte.
    - A Go [map[string]T] is a [gmap string T]; a Go [map[string]struct{}]
      is a [gset string].
    - [notify.Fatal], [notify.Fatalf], [ParseError] and Go run-time panics
      end the run; a computation that can reach one returns a [res].
    - Writes to the [io.Writer] are accumulated in the [written] field of
      the [W] monad, so that the text emitted before an abort is kept. *)

From Stdlib Require Import Ascii.
From stdpp Require Import base decidable option list strings gmap sorting pretty.

Local Open Scope Z_scope.
#[local] Set Warnings "-clear-no-such-hyp".

(** ** Data model *)

(** Modelled from the spec: the declaration of [ASTNodeType] is part of the
    generated parser, which is not among the sources.  The tags are the
    ones the sources name, which are also the ones section 3 lists. *)
Inductive ASTNodeType : Set :=
| NumeralType | AtomType | VariableType
| UnaryOpType | AdditiveOpType | MultiplicativeOpType | RelationOpType
| PrimaryExprType | UnaryExprType | MultiplicativeExprType | AdditiveExprType
| RelationType | PredicateType | TermType
| ClauseType | ListType | StructureType.

#[global] Instance ASTNodeType_eq_dec : EqDecision ASTNodeType.
Proof. solve_decision. Defined.

(** Modelled from the spec: [position] as used by [ParseError]
    ([pos.line], [pos.col]). *)
Record position : Set := Position { line : Z; col : Z }.

(** The dynamically typed payload [Value interface{}]: a string for atoms,
    variables and operators, an integer for numerals, or nothing. *)
Inductive payload : Set :=
| NoValue
| StringValue (s : string)
| IntValue (n : Z).

(** Modelled from the spec: [ASTNode], with the fields the sources read
    ([Type], [Value], [Text], [Pos], [Children]). *)
#[local] Set Warnings "-register-all".
Inductive ASTNode : Set :=
  Node { Type_ : ASTNodeType;
         Value : payload;
         Text : string;
         Pos : position;
         Children : list ASTNode }.

(** ** Aborting computations *)

(** An operand of a [notify.Fatalf] call. *)
Inductive operand : Set :=
| StrArg (s : string)
| TypeArg (t : ASTNodeType)
| NodeArg (a : ASTNode).

(** The ways a run ends early.  [Fatalf] keeps the format string of the
    source and its operands; [ParseErrorAt] is a call of [ParseError],
    which prints the position and the message and exits; [Panic] is a Go
    run-time panic (index or slice out of range, failed type assertion). *)
Inductive failure : Set :=
| Fatalf (format : string) (operands : list operand)
| ParseErrorAt (pos : position) (format : string)
| Panic (reason : string).

Inductive res (A : Type) : Type :=
| Ok (a : A)
| Abort (f : failure).
Arguments Ok {A} a.
Arguments Abort {A} f.

#[global] Instance res_ret : MRet res := @Ok.
#[global] Instance res_bind : MBind res := λ A B f m,
  match m with
  | Ok a => f a
  | Abort e => Abort e
  end.

(** Text written to the [io.Writer], and how the computation ended. *)
Record W (A : Type) : Type := MkW { written : string; outcome : res A }.
Arguments MkW {A} written outcome.
Arguments written {A} w.
Arguments outcome {A} w.

#[global] Instance W_ret : MRet W := λ A a, MkW "" (Ok a).
#[global] Instance W_bind : MBind W := λ A B f m,
  match outcome m with
  | Ok a => let n := f a in MkW (written m +:+ written n) (outcome n)
  | Abort e => MkW (written m) (Abort e)
  end.

(** [fmt.Fprint(w, s)] *)
Definition Fprint (s : string) : W unit := MkW s (Ok tt).
(** [fmt.Fprintln(w, s)] *)
Definition Fprintln (s : string) : W unit := Fprint (s +:+ "
").
(** A computation that writes nothing. *)
Definition lift {A} (r : res A) : W A := MkW "" r.

(** The line feed, for format strings ending in [\n]. *)
Definition LF : string := "
".

(** ** The identifier encoder ([verilog.go], [numToVerVar]) *)

Definition chars : string := "ABCDEFGHIJKLMNOPQRSTUVWXYZ".
Definition nChars : Z := Z.of_nat (String.length chars).

(** The Go slice expression [s[lo:hi]] on a string; out-of-range bounds
    panic. *)
Definition slice (s : string) (lo hi : Z) : res string :=
  if decide (0 ≤ lo ∧ lo ≤ hi ∧ hi ≤ Z.of_nat (String.length s))
  then Ok (String.substring (Z.to_nat lo) (Z.to_nat (hi - lo)) s)
  else Abort (Panic "slice bounds out of range").

(** [%] and [/] on [int] truncate towards zero ([Z.rem], [Z.quot]).  No
    operation here can leave the range of [int]: [n + 1] is computed only
    when [n < 26], and [n1], [n0 + 1] only when [n < 702]. *)
Definition numToVerVar (n : Z) : res string :=
  if decide (n < nChars) then
    c ← slice chars n (n + 1);
    Ok ("$" +:+ c)
  else if decide (n < nChars * (nChars + 1)) then
    let n0 := Z.rem n nChars in
    let n1 := Z.quot n nChars in
    c1 ← slice chars (n1 - 1) n1;
    c0 ← slice chars n0 (n0 + 1);
    Ok ("$" +:+ c1 +:+ c0)
  else Abort (Fatalf "Too many parameters" []).

(** ** Clause arguments ([verilog.go], [args]) *)

(** The loop of [args]: position [i] gets the argument's [Text] and the
    identifier [numToVerVar(i)]. *)
Fixpoint args_loop (i : nat) (terms : list ASTNode) : res (list string * list string) :=
  match terms with
  | [] => Ok ([], [])
  | a :: terms' =>
      v ← numToVerVar (Z.of_nat i);
      '(pArgs, vArgs) ← args_loop (S i) terms';
      Ok (Text a :: pArgs, v :: vArgs)
  end.

(** [pred := c.Children[0]] and [terms := pred.Children[1:]] panic when the
    clause has no child or its head has none. *)
Definition args (c : ASTNode) : res (list string * list string) :=
  match Children c with
  | [] => Abort (Panic "index out of range")
  | pred :: _ =>
      match Children pred with
      | [] => Abort (Panic "slice bounds out of range")
      | _ :: terms => args_loop 0 terms
      end
  end.

(** ** The operator translator *)

Definition prologToVerilogUnary : gmap string string :=
  {[ "-" := "-" ]}.

Definition prologToVerilogAdd : gmap string string :=
  <[ "+" := "+" ]> {[ "-" := "-" ]}.

Definition prologToVerilogMult : gmap string string :=
  {[ "*" := "*" ]}.

Definition prologToVerilogRel : gmap string string :=
  <[ "<=" := "<=" ]> (<[ ">=" := ">=" ]> (<[ "<" := "<" ]> (<[ ">" := ">" ]>
  (<[ "=" := "==" ]> (<[ "\=" := "!=" ]> {[ "is" := "==" ]}))))).

(** ** The expression lowerer ([verilog.go], [toVerilogExpr]) *)

(** The type assertion [a.Value.(string)] without the [ok] result. *)
Definition valueString (a : ASTNode) : res string :=
  match Value a with
  | StringValue s => Ok s
  | _ => Abort (Panic "interface conversion: not a string")
  end.

(** An operator node: look its payload up in the table of its class. *)
Definition lowerOperator (table : gmap string string) (a : ASTNode) : res string :=
  s ← valueString a;
  match table !! s with
  | Some v => Ok v
  | None =>
      Abort (Fatalf "Internal error: Failed to convert %s %q from Prolog to Verilog"
                    [TypeArg (Type_ a); StrArg s])
  end.

Definition indexPanic {A} : res A := Abort (Panic "index out of range").

Fixpoint toVerilogExpr (a : ASTNode) (p2v : gmap string string) {struct a} : res string :=
  match a with
  | Node ty val txt pos kids =>
      match ty with
      | NumeralType => Ok txt
      | AtomType => valueString a
      | VariableType =>
          s ← valueString a;
          match p2v !! s with
          | Some v => Ok v
          | None =>
              Abort (Fatalf "Internal error: Failed to convert variable %s from Prolog to Verilog"
                            [StrArg s])
          end
      | UnaryOpType => lowerOperator prologToVerilogUnary a
      | AdditiveOpType => lowerOperator prologToVerilogAdd a
      | MultiplicativeOpType => lowerOperator prologToVerilogMult a
      | RelationOpType => lowerOperator prologToVerilogRel a
      | PrimaryExprType =>
          match kids with
          | [] => indexPanic
          | k0 :: _ =>
              c ← toVerilogExpr k0 p2v;
              s ← valueString a;
              if decide (s = "()") then Ok ("(" +:+ c +:+ ")") else Ok c
          end
      | UnaryExprType =>
          match kids with
          | [] => indexPanic
          | [k0] => toVerilogExpr k0 p2v
          | k0 :: k1 :: _ =>
              c0 ← toVerilogExpr k0 p2v;
              c1 ← toVerilogExpr k1 p2v;
              Ok (c0 +:+ c1)
          end
      | MultiplicativeExprType =>
          match kids with
          | [] => indexPanic
          | [k0] => toVerilogExpr k0 p2v
          | [k0; k1] =>
              _ ← toVerilogExpr k0 p2v; _ ← toVerilogExpr k1 p2v; indexPanic
          | k0 :: k1 :: k2 :: _ =>
              c1 ← toVerilogExpr k0 p2v;
              v ← toVerilogExpr k1 p2v;
              c2 ← toVerilogExpr k2 p2v;
              Ok (c1 +:+ v +:+ c2)
          end
      | AdditiveExprType =>
          match kids with
          | [] => indexPanic
          | [k0] => toVerilogExpr k0 p2v
          | [k0; k1] =>
              _ ← toVerilogExpr k0 p2v; _ ← toVerilogExpr k1 p2v; indexPanic
          | k0 :: k1 :: k2 :: _ =>
              c1 ← toVerilogExpr k0 p2v;
              v ← toVerilogExpr k1 p2v;
              c2 ← toVerilogExpr k2 p2v;
              Ok (c1 +:+ " " +:+ v +:+ " " +:+ c2)
          end
      | RelationType =>
          match kids with
          | [] => indexPanic
          | [k0] => _ ← toVerilogExpr k0 p2v; indexPanic
          | [k0; k1] =>
              _ ← toVerilogExpr k0 p2v; _ ← toVerilogExpr k1 p2v; indexPanic
          | k0 :: k1 :: k2 :: _ =>
              c1 ← toVerilogExpr k0 p2v;
              v ← toVerilogExpr k1 p2v;
              c2 ← toVerilogExpr k2 p2v;
              Ok (c1 +:+ " " +:+ v +:+ " " +:+ c2)
          end
      | PredicateType | TermType =>
          match kids with
          | [] => indexPanic
          | k0 :: _ => toVerilogExpr k0 p2v
          end
      | ClauseType | ListType | StructureType =>
          Abort (Fatalf "Internal error: Unexpected AST node type %s" [TypeArg ty])
      end
  end.

(** ** Character classes *)

(** Go's [unicode.IsLower], [unicode.IsDigit] and [unicode.IsUpper] on the
    runes [process] hands them: [rune(a[0])] is the value of one byte, so
    only the Latin-1 part of the tables is reachable. *)
Module unicode.
Definition IsLower (r : Z) : bool :=
  bool_decide (97 ≤ r ≤ 122 ∨ r = 181 ∨ 223 ≤ r ≤ 246 ∨ 248 ≤ r ≤ 255).
Definition IsDigit (r : Z) : bool :=
  bool_decide (48 ≤ r ≤ 57).
Definition IsUpper (r : Z) : bool :=
  bool_decide (65 ≤ r ≤ 90 ∨ 192 ≤ r ≤ 214 ∨ 216 ≤ r ≤ 222).
End unicode.

(** The conversion [rune(b)] of a byte. *)
Definition rune (b : ascii) : Z := Z.of_N (N_of_ascii b).

(** ** The clause compiler ([verilog.go], [process] and [writeClauseBody]) *)

(** [l[i]] on a slice. *)
Definition index {A} (l : list A) (i : nat) : res A :=
  match l !! i with
  | Some x => Ok x
  | None => indexPanic
  end.

(** The first loop of [process]: one constraint per symbolic or numeric
    head argument, none per variable. *)
Fixpoint classify_loop (i : nat) (pArgs vArgs valid : list string) : res (list string) :=
  match pArgs with
  | [] => Ok valid
  | a :: pArgs' =>
      match a with
      | EmptyString => indexPanic
      | String b _ =>
          let r0 := rune b in
          if unicode.IsLower r0 then
            v ← index vArgs i;
            classify_loop (S i) pArgs' vArgs (valid ++ [v +:+ " == `" +:+ a])
          else if unicode.IsDigit r0 then
            v ← index vArgs i;
            classify_loop (S i) pArgs' vArgs (valid ++ [v +:+ " == " +:+ a])
          else if unicode.IsUpper r0 then
            classify_loop (S i) pArgs' vArgs valid
          else Abort (Fatalf "Internal error processing %q" [StrArg a])
      end
  end.

(** The second loop of [process]: one constraint per body predicate. *)
Fixpoint body_loop (body : list ASTNode) (p2v : gmap string string)
    (valid : list string) : res (list string) :=
  match body with
  | [] => Ok valid
  | p :: body' =>
      e ← toVerilogExpr p p2v;
      body_loop body' p2v (valid ++ [e])
  end.

Definition process (c : ASTNode) (p2v : gmap string string) : res (list string) :=
  '(pArgs, vArgs) ← args c;
  valid ← classify_loop 0 pArgs vArgs [];
  match Children c with
  | [] => Abort (Panic "slice bounds out of range")
  | _ :: body => body_loop body p2v valid
  end.

(** The loop of [writeClauseBody] that builds the substitution map and
    constrains repeated argument texts. *)
Fixpoint bind_loop (i : nat) (pArgs vArgs valid : list string)
    (p2v : gmap string string) : res (list string * gmap string string) :=
  match pArgs with
  | [] => Ok (valid, p2v)
  | p :: pArgs' =>
      match p2v !! p with
      | Some v =>
          vi ← index vArgs i;
          bind_loop (S i) pArgs' vArgs (valid ++ [vi +:+ " == " +:+ v]) p2v
      | None =>
          vi ← index vArgs i;
          bind_loop (S i) pArgs' vArgs valid (<[p := vi]> p2v)
      end
  end.

(** The slice [valid] of [writeClauseBody] at the point where it is
    printed. *)
Definition clauseValid (c : ASTNode) : res (list string) :=
  '(pArgs, vArgs) ← args c;
  '(valid, p2v) ← bind_loop 0 pArgs vArgs [] ∅;
  more ← process c p2v;
  let valid := valid ++ more in
  if decide (length valid = 0%nat) then Ok (valid ++ ["1'b1"]) else Ok valid.

(** Modelled from the spec: the fields [IntToSym] (the symbol table) and
    [TopLevel] (the predicate groups) of [Parameters], which [verilog.go]
    reads and the declaration in the sources lacks.  [IntBits] is a [uint],
    taken as 64 bits wide. *)
Record Parameters : Type := MkParameters {
  ProgName : string;
  InFileName : string;
  IntBits : Z;
  IntToSym : list string;
  TopLevel : gmap string (list ASTNode)
}.

(** The clause number [cNum] is an [int] and the code prints [cNum+1].
    The sum is taken in [Z]: it is Go's sum for every [cNum] below
    [2 ^ 63 - 1], as every slice index is. *)
Fixpoint assign_loop (cNum : Z) (i : nat) (valid : list string) : W unit :=
  match valid with
  | [] => mret tt
  | v :: valid' =>
      Fprint ("  assign $v" +:+ pretty (cNum + 1) +:+ "[" +:+ pretty (Z.of_nat i)
              +:+ "] = " +:+ v +:+ ";" +:+ LF);;
      assign_loop cNum (S i) valid'
  end.

Definition writeClauseBody (c : ASTNode) (p : Parameters) (nm : string) (cNum : Z) : W unit :=
  valid ← lift (clauseValid c);
  Fprint ("  wire [" +:+ pretty (Z.of_nat (length valid) - 1) +:+ ":0] $v"
          +:+ pretty (cNum + 1) +:+ ";" +:+ LF);;
  assign_loop cNum 0 valid.

(** ** The clause-group compiler *)

Fixpoint header_names (i : nat) (vArgs : list string) : W unit :=
  match vArgs with
  | [] => mret tt
  | a :: vArgs' =>
      (if decide (0 < i)%nat then Fprint ", " else mret tt);;
      Fprint a;;
      header_names (S i) vArgs'
  end.

Fixpoint header_inputs (decl : string → string) (vArgs : list string) : W unit :=
  match vArgs with
  | [] => mret tt
  | a :: vArgs' => Fprint (decl a);; header_inputs decl vArgs'
  end.

(** [p.IntBits-1] is computed on [uint] and wraps. *)
Definition writeClauseGroupHeader (a : ASTNode) (p : Parameters) (nm : string)
    (cs : list ASTNode) : W unit :=
  c0 ← lift (index cs 0);
  '(_, vArgs) ← lift (args c0);
  Fprint ("// Define " +:+ nm +:+ "." +:+ LF);;
  Fprint ("module \" +:+ nm +:+ " (");;
  header_names 0 vArgs;;
  Fprintln ", $valid);";;
  (if decide (IntBits p = 1)
   then header_inputs (λ a, "  input " +:+ a +:+ ";" +:+ LF) vArgs
   else header_inputs (λ a, "  input [" +:+ pretty ((IntBits p - 1) `mod` 2 ^ 64)
                            +:+ ":0] " +:+ a +:+ ";" +:+ LF) vArgs);;
  Fprintln "  output $valid;".

Fixpoint bodies_loop (p : Parameters) (nm : string) (i : nat) (cs : list ASTNode) : W unit :=
  match cs with
  | [] => mret tt
  | c :: cs' => writeClauseBody c p nm (Z.of_nat i);; bodies_loop p nm (S i) cs'
  end.

Fixpoint or_loop (i : nat) (cs : list ASTNode) : W unit :=
  match cs with
  | [] => mret tt
  | _ :: cs' =>
      (if decide (0 < i)%nat then Fprint " | " else mret tt);;
      Fprint ("&$v" +:+ pretty (Z.of_nat i + 1));;
      or_loop (S i) cs'
  end.

Definition writeClauseGroup (a : ASTNode) (p : Parameters) (nm : string)
    (cs : list ASTNode) : W unit :=
  writeClauseGroupHeader a p nm cs;;
  bodies_loop p nm 0 cs;;
  Fprint "  assign $valid = ";;
  or_loop 0 cs;;
  Fprintln ";";;
  Fprintln "endmodule".

(** ** The program emitter ([verilog.go], [writeSymbols] and [WriteVerilog]) *)

(** The loop [for n := len(p.IntToSym) - 1; n > 0; n /= 10 { digs++ }].
    Each round divides [n] by ten, so [n] rounds of fuel are enough. *)
Fixpoint digits_loop (fuel : nat) (n digs : Z) : Z :=
  match fuel with
  | O => digs
  | S fuel' =>
      if decide (0 < n) then digits_loop fuel' (Z.quot n 10) (digs + 1) else digs
  end.

Definition spaces (n : Z) : string :=
  String.concat "" (replicate (Z.to_nat n) " ").

(** A width operand of [*]: [fmt] refuses widths above a million and then
    prints a marker and formats without a width. *)
Definition starWidth (wid : Z) : string * Z :=
  if decide (wid ≤ 1000000) then ("", wid) else ("%!(BADWIDTH)", 0).

(** [Sprintf("%-*s", wid, s)] and [Sprintf("%*d", wid, i)].  The padding
    counts the bytes of [s], where [fmt] counts its runes: the two agree
    on ASCII text, which the decimal digits are and which the properties
    of [writeSymbols] require of the symbol names. *)
Definition padRight (wid : Z) (s : string) : string :=
  let '(bad, wid) := starWidth wid in
  bad +:+ s +:+ spaces (wid - Z.of_nat (String.length s)).
Definition padLeft (wid : Z) (s : string) : string :=
  let '(bad, wid) := starWidth wid in
  bad +:+ spaces (wid - Z.of_nat (String.length s)) +:+ s.

Fixpoint symbols_loop (p : Parameters) (digs : Z) (i : nat) (syms : list string) : W unit :=
  match syms with
  | [] => mret tt
  | s :: syms' =>
      Fprint ("`define " +:+ padRight (IntBits p) s +:+ " "
              +:+ padLeft digs (pretty (Z.of_nat i)) +:+ LF);;
      symbols_loop p digs (S i) syms'
  end.

Definition writeSymbols (a : ASTNode) (p : Parameters) : W unit :=
  let n := Z.of_nat (length (IntToSym p)) - 1 in
  let digs := digits_loop (Z.to_nat n) n 0 in
  Fprintln "// Define all of the symbols used in this program.";;
  symbols_loop p digs 0 (IntToSym p).

Fixpoint groups_loop (a : ASTNode) (p : Parameters)
    (order : list (string * list ASTNode)) : W unit :=
  match order with
  | [] => mret tt
  | (nm, cs) :: order' =>
      Fprintln "";;
      writeClauseGroup a p nm cs;;
      groups_loop a p order'
  end.

(** [WriteVerilog], given the sequence in which [range p.TopLevel] yields
    the entries of the map. *)
Definition WriteVerilogIn (order : list (string * list ASTNode))
    (a : ASTNode) (p : Parameters) : W unit :=
  Fprint ("// Verilog version of Prolog program " +:+ InFileName p +:+ LF);;
  Fprint ("// Conversion by " +:+ ProgName p
          +:+ ", written by Scott Pakin <pakin@lanl.gov>" +:+ LF);;
  Fprintln ("//" +:+ LF
    +:+ "// This program is intended to be passed to edif2qmasm, then to qmasm, and" +:+ LF
    +:+ "// finally run on a quantum annealer." +:+ LF
    +:+ "//");;
  Fprint ("// Note: This program uses exclusively " +:+ pretty (IntBits p)
          +:+ "-bit unsigned integers." +:+ LF +:+ LF);;
  writeSymbols a p;;
  groups_loop a p order.

(** [p.TopLevel] is a Go map, and [range] over a map visits every entry
    once in an order the language leaves open and the run time varies from
    one run to the next.  A run of [WriteVerilog] is therefore a run of
    [WriteVerilogIn] for some arrangement of the entries. *)
Definition range_order {V} (m : gmap string V) (order : list (string * V)) : Prop :=
  order ≡ₚ map_to_list m.

Definition WriteVerilog (a : ASTNode) (p : Parameters) (run : W unit) : Prop :=
  ∃ order, range_order (TopLevel p) order ∧ run = WriteVerilogIn order a p.

(** ** Tree walks and the validator (the preprocessing pass) *)

(** [walker] appends to the captured slice [nodes]; the slice is threaded
    through. *)
Fixpoint walker (t : ASTNodeType) (n : ASTNode) (nodes : list ASTNode) : list ASTNode :=
  match n with
  | Node ty _ _ _ kids =>
      let nodes := if decide (ty = t) then nodes ++ [n] else nodes in
      fold_left (λ nodes c, walker t c nodes) kids nodes
  end.

Definition FindByType (a : ASTNode) (t : ASTNodeType) : list ASTNode :=
  walker t a [].

(** [ParseError] is the function [main] installs: it prints the position
    and the message and exits. *)
Definition RejectUnimplemented (a : ASTNode) (p : Parameters) : res unit :=
  _ ← match FindByType a ListType with
      | n0 :: _ => Abort (ParseErrorAt (Pos n0) "Lists are not currently supported")
      | [] => Ok tt
      end;
  match FindByType a StructureType with
  | n0 :: _ => Abort (ParseErrorAt (Pos n0) "Structures are not currently supported")
  | [] => Ok tt
  end.

(** [uniqueAtomNames] adds to the set it is handed; the set is threaded
    through.  [kids[1:]] panics on a clause without children. *)
Fixpoint uniqueAtomNames (a : ASTNode) (names : gset string) : res (gset string) :=
  match a with
  | Node ty val _ _ kids =>
      let visit :=
        fix visit (kids : list ASTNode) (names : gset string) : res (gset string) :=
          match kids with
          | [] => Ok names
          | aa :: kids' =>
              names ← uniqueAtomNames aa names;
              visit kids' names
          end in
      names ←
        (if decide (ty = AtomType) then
           match val with
           | StringValue nm => Ok ({[ nm ]} ∪ names)
           | _ => Abort (Fatalf "Internal error parsing %#v" [NodeArg a])
           end
         else Ok names);
      if decide (ty = ClauseType) then
        match kids with
        | [] => Abort (Panic "slice bounds out of range")
        | _ :: kids' => visit kids' names
        end
      else visit kids names
  end.

(** [sort.Strings]: ascending in the byte-wise order of Go's [<] on
    strings. *)
Definition sortStrings (l : list string) : list string :=
  merge_sort String.le l.

(** [AtomNames], given the sequence [nmList] in which [range nmSet] yields
    the names before they are sorted. *)
Definition AtomNamesIn (nmList : list string) : list string :=
  sortStrings nmList.

Definition AtomNames (a : ASTNode) : res (list string) :=
  nmSet ← uniqueAtomNames a ∅;
  Ok (AtomNamesIn (elements nmSet)).

(** [MaxNumeral]: the type assertion [a.Value.(int)] panics on a numeral
    node whose payload is not an integer; [max] starts at 0 and only ever
    grows. *)
Fixpoint MaxNumeral (a : ASTNode) : res Z :=
  match a with
  | Node ty val _ _ kids =>
      let scan :=
        fix scan (kids : list ASTNode) (max : Z) : res Z :=
          match kids with
          | [] => Ok max
          | aa :: kids' =>
              m ← MaxNumeral aa;
              scan kids' (if decide (max < m) then m else max)
          end in
      max ←
        (if decide (ty = NumeralType) then
           match val with
           | IntValue m => Ok (if decide (0 < m) then m else 0)
           | _ => Abort (Panic "interface conversion: not an int")
           end
         else Ok 0);
      scan kids max
  end.

(** * Vocabulary of the properties *)

(** The letter at an index of the alphabet, as the design document uses the
    phrase: indices run from 0 to 25. *)
Definition letter (i : Z) : option ascii :=
  if decide (0 ≤ i) then String.get (Z.to_nat i) chars else None.

(** The sigil that starts every generated identifier. *)
Definition sigil : ascii := "$"%char.

(** The capital letter with a given offset from [A]. *)
Definition capital (i : Z) : ascii := ascii_of_nat (65 + Z.to_nat i).

(** The nodes of a tree in depth-first pre-order, children left to right. *)
Fixpoint preorder (a : ASTNode) : list ASTNode :=
  match a with
  | Node _ _ _ _ kids => a :: flat_map preorder kids
  end.

(** The first node of a type in depth-first pre-order, if there is one. *)
Definition firstOfType (t : ASTNodeType) (a : ASTNode) : option ASTNode :=
  head (filter (λ n, Type_ n = t) (preorder a)).

(** The nodes [uniqueAtomNames] reaches: every node except those in the
    first child of a clause, which is the clause's head (name and formal
    arguments; compare [args]). *)
Fixpoint outsideHeads (a : ASTNode) : list ASTNode :=
  match a with
  | Node ty _ _ _ kids =>
      a :: (if decide (ty = ClauseType) then
              match kids with
              | [] => []
              | _ :: body => flat_map outsideHeads body
              end
            else flat_map outsideHeads kids)
  end.

(** Every node except the head names: in the head of a clause, the first
    child (the name) is left out and the formal arguments are kept. *)
Fixpoint besidesHeadNames (a : ASTNode) : list ASTNode :=
  match a with
  | Node ty _ _ _ kids =>
      a :: (if decide (ty = ClauseType) then
              match kids with
              | [] => []
              | Node _ _ _ _ hkids as h :: body =>
                  h :: match hkids with
                       | [] => []
                       | _ :: formals => flat_map besidesHeadNames formals
                       end
                    ++ flat_map besidesHeadNames body
              end
            else flat_map besidesHeadNames kids)
  end.

(** The name an atom node carries. *)
Definition atomName (n : ASTNode) : option string :=
  if decide (Type_ n = AtomType) then
    match Value n with
    | StringValue nm => Some nm
    | _ => None
    end
  else None.

(** What [uniqueAtomNames] needs of a node it reaches: an atom has a string
    payload, a clause has a child. *)
Definition walkable (n : ASTNode) : bool :=
  match Type_ n with
  | AtomType => match Value n with StringValue _ => true | _ => false end
  | ClauseType => match Children n with [] => false | _ => true end
  | _ => true
  end.

(** Strictly ascending in the byte-wise order of strings. *)
Definition ascending (l : list string) : Prop :=
  StronglySorted (strict String.le) l.

(** The name of a clause: the atom that is the first child of its head. *)
Definition headName (c : ASTNode) : option string :=
  match Children c with
  | h :: _ =>
      match Children h with
      | nm :: _ => atomName nm
      | [] => None
      end
  | [] => None
  end.

(** The documentation of [AtomNames], as it stands ("a sorted list of all
    atoms named in an AST except predicate names"; "skip ... the name of
    the clause itself"): the result is strictly ascending and holds exactly
    the names of the atoms of the tree other than the name nodes of the
    clause heads, the atoms among the formal arguments of a head
    included. *)
Definition AtomNames_as_documented (a : ASTNode) : Prop :=
  ∀ l, AtomNames a = Ok l →
    ascending l ∧
    ∀ nm, nm ∈ l ↔ ∃ n, n ∈ besidesHeadNames a ∧ atomName n = Some nm.

Module Samples.
Definition origin : position := Position 1 1.
Definition atom (nm : string) : ASTNode := Node AtomType (StringValue nm) nm origin [].
Definition variable (nm : string) : ASTNode :=
  Node VariableType (StringValue nm) nm origin [].
Definition numeral (n : Z) : ASTNode := Node NumeralType (IntValue n) (pretty n) origin [].
Definition term (k : ASTNode) : ASTNode := Node TermType NoValue (Text k) origin [k].
Definition relop (op : string) : ASTNode :=
  Node RelationOpType (StringValue op) op origin [].
Definition relation (l : ASTNode) (op : string) (r : ASTNode) : ASTNode :=
  Node RelationType NoValue "" origin [l; relop op; r].
Definition predicate (k : ASTNode) : ASTNode := Node PredicateType NoValue "" origin [k].
Definition head (nm : string) (formals : list ASTNode) : ASTNode :=
  Node PredicateType NoValue nm origin (atom nm :: formals).
Definition clause (h : ASTNode) (body : list ASTNode) : ASTNode :=
  Node ClauseType NoValue "" origin (h :: body).

(** [foo(a) :- foo = b.] *)
Definition foo_a : ASTNode :=
  clause (head "foo" [term (atom "a")])
         [predicate (relation (term (atom "foo")) "=" (term (atom "b")))].
End Samples.

(** The position of the first occurrence of [x] in [l]. *)
Fixpoint firstIndex (x : string) (l : list string) : option nat :=
  match l with
  | [] => None
  | y :: l' => if decide (y = x) then Some 0%nat else S <$> firstIndex x l'
  end.

(** [x] occurs in [l] at position [k] and at no earlier position. *)
Definition firstAt (l : list string) (x : string) (k : nat) : Prop :=
  firstIndex x l = Some k.

(** The class of an argument text is the class of its first byte. *)
Definition startsWith (class : Z → bool) (a : string) : bool :=
  match a with
  | EmptyString => false
  | String b _ => class (rune b)
  end.

(** The texts [process] has a branch for. *)
Definition classified (a : string) : bool :=
  startsWith unicode.IsLower a || startsWith unicode.IsDigit a
  || startsWith unicode.IsUpper a.

Module ClauseSamples.
Import Samples.
(** [foo(a, X, X).] *)
Definition foo_aXX : ASTNode :=
  clause (head "foo" [term (atom "a"); term (variable "X"); term (variable "X")]) [].
(** [stupid(A, B, C).] *)
Definition stupid : ASTNode :=
  clause (head "stupid" [term (variable "A"); term (variable "B"); term (variable "C")]) [].
(** [same(k, 7, k, 7).] *)
Definition same : ASTNode :=
  clause (head "same" [term (atom "k"); term (numeral 7); term (atom "k"); term (numeral 7)]) [].
(** [odd(x, _y).] *)
Definition odd : ASTNode :=
  clause (head "odd" [term (atom "x"); term (variable "_y")]) [].
(** [lt(X, Y) :- X < Y.] *)
Definition lt : ASTNode :=
  clause (head "lt" [term (variable "X"); term (variable "Y")])
         [predicate (relation (term (variable "X")) "<" (term (variable "Y")))].
Definition params : Parameters :=
  MkParameters "qa-prolog" "sample.pl" 4 ["a"; "k"; "x"]
    (<[ "lt" := [lt] ]> {[ "stupid" := [stupid] ]}).
End ClauseSamples.

(** The computation does not end in the fatal branch of [process]. *)
Definition avoidsProcessingError {A} (r : res A) : Prop :=
  ∀ operands, r ≠ Abort (Fatalf "Internal error processing %q" operands).

(** The validity signal of the clause at position [i] of its group, and its
    AND-reduction. *)
Definition signal (i : nat) : string := "$v" +:+ pretty (Z.of_nat i + 1).
Definition andReduced (i : nat) : string := "&" +:+ signal i.

(** The OR of the AND-reduced validity signals of [k] clauses, in clause
    order; for one clause it is that clause's AND-reduction alone. *)
Definition orOfClauses (k : nat) : string :=
  String.concat " | " (andReduced <$> seq 0 k).

(** The text of the clause bodies of a group: the text of each clause, in
    clause order, the clause at position [i] compiled under the number
    [i]. *)
Fixpoint bodiesText (p : Parameters) (nm : string) (i : nat) (cs : list ASTNode) : string :=
  match cs with
  | [] => ""
  | c :: cs' => written (writeClauseBody c p nm (Z.of_nat i)) +:+ bodiesText p nm (S i) cs'
  end.

(** What [WriteVerilog] writes before the first module: the header
    comments and the symbol definitions. *)
Definition preamble (a : ASTNode) (p : Parameters) : string :=
  written (WriteVerilogIn [] a p).

(** One module per group of [order], in that order, each after an empty
    line. *)
Definition modulesText (a : ASTNode) (p : Parameters)
    (order : list (string * list ASTNode)) : string :=
  String.concat "" ((λ g, LF +:+ written (writeClauseGroup a p g.1 g.2)) <$> order).

(** The sentence of the design document about the order of the modules, as
    it stands: two runs on the same inputs write the same text. *)
Definition WriteVerilog_repeatable (a : ASTNode) (p : Parameters) : Prop :=
  ∀ run1 run2, WriteVerilog a p run1 → WriteVerilog a p run2 → run1 = run2.

Module GroupSamples.
Import ClauseSamples.
Definition lt_first : list (string * list ASTNode) :=
  [("lt", [lt]); ("stupid", [stupid])].
Definition stupid_first : list (string * list ASTNode) :=
  [("stupid", [stupid]); ("lt", [lt])].
End GroupSamples.

(** The integer a numeral node carries. *)
Definition numeralValue (n : ASTNode) : option Z :=
  if decide (Type_ n = NumeralType) then
    match Value n with
    | IntValue v => Some v
    | _ => None
    end
  else None.

(** What [MaxNumeral] needs of a node: a numeral carries an integer. *)
Definition countable_numeral (n : ASTNode) : bool :=
  match Type_ n with
  | NumeralType => match Value n with IntValue _ => true | _ => false end
  | _ => true
  end.

(** The names of the variable nodes of a tree. *)
Definition variableName (n : ASTNode) : option string :=
  if decide (Type_ n = VariableType) then
    match Value n with
    | StringValue x => Some x
    | _ => None
    end
  else None.
Definition variableNames (a : ASTNode) : list string :=
  omap variableName (preorder a).

(** The argument texts [process] turns into a constraint: symbolic
    constants and numerals. *)
Definition literalArgument (a : string) : bool :=
  startsWith unicode.IsLower a || startsWith unicode.IsDigit a.

(** The lines [writeClauseBody] writes: the declaration of the signal and
    the assignment of one of its bits. *)
Definition wireLine (cNum : Z) (width : nat) : string :=
  "  wire [" +:+ pretty (Z.of_nat width - 1) +:+ ":0] $v" +:+ pretty (cNum + 1)
  +:+ ";" +:+ LF.
Definition assignLine (cNum : Z) (i : nat) (v : string) : string :=
  "  assign $v" +:+ pretty (cNum + 1) +:+ "[" +:+ pretty (Z.of_nat i) +:+ "] = "
  +:+ v +:+ ";" +:+ LF.

(** The line [writeSymbols] writes for the symbol at position [i]. *)
Definition defineLine (p : Parameters) (digs : Z) (i : nat) (s : string) : string :=
  "`define " +:+ padRight (IntBits p) s +:+ " " +:+ padLeft digs (pretty (Z.of_nat i))
  +:+ LF.

(** A text of ASCII bytes only: its runes are its bytes. *)
Fixpoint asciiOnly (s : string) : bool :=
  match s with
  | EmptyString => true
  | String b s' => bool_decide (rune b < 128) && asciiOnly s'
  end.

(** The width [writeSymbols] pads the symbol numbers to. *)
Definition symbolDigits (p : Parameters) : Z :=
  let n := Z.of_nat (length (IntToSym p)) - 1 in
  digits_loop (Z.to_nat n) n 0.

Module MoreSamples.
Import Samples.
(** [big(3, 7, 2) :- 12 < 5.] *)
Definition big : ASTNode :=
  clause (head "big" [term (numeral 3); term (numeral 7); term (numeral 2)])
         [predicate (relation (term (numeral 12)) "<" (term (numeral 5)))].
(** A numeral node whose payload is a string. *)
Definition broken_numeral : ASTNode :=
  Node NumeralType (StringValue "7") "7" origin [].
(** [free(X) :- X < Y.]: [Y] is no head argument. *)
Definition free : ASTNode :=
  clause (head "free" [term (variable "X")])
         [predicate (relation (term (variable "X")) "<" (term (variable "Y")))].
(** [X < Y] *)
Definition x_lt_y : ASTNode :=
  predicate (relation (term (variable "X")) "<" (term (variable "Y"))).
(** A list node with one atom, and a clause without children. *)
Definition list_of_a : ASTNode := Node ListType NoValue "[a]" (Position 3 9) [atom "a"].
Definition empty_clause : ASTNode := Node ClauseType NoValue "" origin [].
Definition ten_symbols : Parameters :=
  MkParameters "qa-prolog" "sample.pl" 4
    ["a"; "b"; "c"; "d"; "e"; "f"; "g"; "h"; "i"; "j"; "k"]
    (<[ "free" := [free] ]> {[ "stupid" := [ClauseSamples.stupid] ]}).
End MoreSamples.

(** * Properties *)

(** ** Generic facts about the monads *)

Lemma res_bind_Ok {A B} (m : res A) (f : A → res B) (b : B) :
  m ≫= f = Ok b ↔ ∃ a, m = Ok a ∧ f a = Ok b.
Proof.
  destruct m as [a|e]; simpl; split.
  - intros H. by exists a.
  - by intros (a' & [= <-] & H).
  - done.
  - by intros (a' & [=] & _).
Qed.

Lemma W_bind_Ok {A B} (m : W A) (f : A → W B) (a : A) :
  outcome m = Ok a →
  m ≫= f = MkW (written m +:+ written (f a)) (outcome (f a)).
Proof. intros H. unfold mbind, W_bind. by rewrite H. Qed.

Lemma W_bind_Abort {A B} (m : W A) (f : A → W B) (e : failure) :
  outcome m = Abort e → m ≫= f = MkW (written m) (Abort e).
Proof. intros H. unfold mbind, W_bind. by rewrite H. Qed.

Lemma app_assoc_string (s1 s2 s3 : string) :
  (s1 +:+ s2) +:+ s3 = s1 +:+ (s2 +:+ s3).
Proof.
  induction s1 as [|c s1 IH]; [done|].
  change (String c ((s1 +:+ s2) +:+ s3) = String c (s1 +:+ (s2 +:+ s3))).
  by rewrite IH.
Qed.

Lemma app_empty_r (s : string) : s +:+ "" = s.
Proof.
  induction s as [|c s IH]; [done|].
  change (String c (s +:+ "") = String c s). by rewrite IH.
Qed.

(** Equalities of texts that differ in how their pieces are grouped. *)
Ltac string_eq := rewrite ?app_assoc_string, ?app_empty_r; reflexivity.

(** ** The identifier encoder *)

Lemma letter_capital (i : Z) :
  0 ≤ i < 26 →
  letter i = Some (capital i) ∧ slice chars i (i + 1) = Ok (String (capital i) "").
Proof.
  intros Hi.
  assert (∃ k : nat, i = Z.of_nat k ∧ (k < 26)%nat) as (k & -> & Hk).
  { exists (Z.to_nat i). lia. }
  do 26 (destruct k as [|k]; [by vm_compute|]). lia.
Qed.

Lemma capital_inj (i j : Z) :
  0 ≤ i < 26 → 0 ≤ j < 26 → capital i = capital j → i = j.
Proof.
  intros Hi Hj H. unfold capital in H.
  apply (f_equal nat_of_ascii) in H.
  rewrite !nat_ascii_embedding in H by lia. lia.
Qed.

Lemma numToVerVar_one_letter (n : Z) :
  0 ≤ n < 26 →
  numToVerVar n = Ok (String sigil (String (capital n) "")).
Proof.
  intros Hn. unfold numToVerVar.
  destruct (decide (n < nChars)) as [_|Hge]; [|by (unfold nChars in Hge; simpl in Hge; lia)].
  destruct (letter_capital n Hn) as [_ ->]. done.
Qed.

Lemma numToVerVar_two_letters (n : Z) :
  26 ≤ n < 702 →
  numToVerVar n =
    Ok (String sigil (String (capital (n `div` 26 - 1)) (String (capital (n `mod` 26)) ""))).
Proof.
  intros Hn. unfold numToVerVar.
  change nChars with 26.
  destruct (decide (n < 26)) as [?|_]; [lia|].
  destruct (decide (n < 26 * (26 + 1))) as [_|?]; [|lia].
  rewrite Z.rem_mod_nonneg, Z.quot_div_nonneg by lia.
  assert (0 ≤ n `div` 26 - 1 < 26) as H1.
  { split.
    - assert (1 ≤ n `div` 26); [|lia]. apply Z.div_le_lower_bound; lia.
    - assert (n `div` 26 < 27); [|lia]. apply Z.div_lt_upper_bound; lia. }
  assert (0 ≤ n `mod` 26 < 26) as H0 by (apply Z.mod_pos_bound; lia).
  destruct (letter_capital _ H1) as [_ E1].
  destruct (letter_capital _ H0) as [_ E0].
  replace (n `div` 26) with (n `div` 26 - 1 + 1) at 2 by lia.
  rewrite E1. simpl. rewrite E0. done.
Qed.

Lemma numToVerVar_Ok_range (n : Z) (s : string) :
  numToVerVar n = Ok s → 0 ≤ n < 702.
Proof.
  unfold numToVerVar. change nChars with 26.
  destruct (decide (n < 26)) as [Hlt|Hge].
  - unfold slice. destruct (decide _) as [Hb|Hb]; [|done].
    intros _. simpl in Hb. lia.
  - destruct (decide (n < 26 * (26 + 1))); [|done]. lia.
Qed.

(** C5: for 0 <= n < 26 the encoder returns the sigil followed by the
    letter at alphabet index n; for 26 <= n < 702 it returns the sigil
    followed by the letter at index (n div 26) - 1 and the letter at index
    n mod 26; and every identifier it produces begins with the sigil. *)
Theorem numToVerVar_letters (n : Z) :
  (0 ≤ n < 26 →
     ∃ c, letter n = Some c ∧ numToVerVar n = Ok (String sigil (String c ""))) ∧
  (26 ≤ n < 702 →
     ∃ c1 c0, letter (n `div` 26 - 1) = Some c1 ∧ letter (n `mod` 26) = Some c0 ∧
              numToVerVar n = Ok (String sigil (String c1 (String c0 "")))) ∧
  (∀ s, numToVerVar n = Ok s → ∃ t, s = String sigil t).
Proof.
  split; [|split].
  - intros Hn. exists (capital n). split.
    + by apply letter_capital.
    + by apply numToVerVar_one_letter.
  - intros Hn. exists (capital (n `div` 26 - 1)), (capital (n `mod` 26)).
    assert (0 ≤ n `div` 26 - 1 < 26) as H1.
    { split.
      - assert (1 ≤ n `div` 26); [|lia]. apply Z.div_le_lower_bound; lia.
      - assert (n `div` 26 < 27); [|lia]. apply Z.div_lt_upper_bound; lia. }
    assert (0 ≤ n `mod` 26 < 26) as H0 by (apply Z.mod_pos_bound; lia).
    split; [by apply letter_capital|]. split; [by apply letter_capital|].
    by apply numToVerVar_two_letters.
  - intros s Hs. pose proof (numToVerVar_Ok_range _ _ Hs) as Hr.
    destruct (decide (n < 26)) as [Hlt|Hge].
    + rewrite numToVerVar_one_letter in Hs by lia. injection Hs as <-. eauto.
    + rewrite numToVerVar_two_letters in Hs by lia. injection Hs as <-. eauto.
Qed.

Lemma numToVerVar_letters_witness :
  numToVerVar 5 = Ok "$F" ∧ numToVerVar 27 = Ok "$AB" ∧ numToVerVar 701 = Ok "$ZZ".
Proof.
  destruct (numToVerVar_letters 5) as [H5 _].
  destruct (numToVerVar_letters 27) as [_ [H27 _]].
  destruct (numToVerVar_letters 701) as [_ [H701 _]].
  destruct H5 as (c & Hc & ->); [lia|].
  destruct H27 as (c1 & c0 & Hc1 & Hc0 & ->); [lia|].
  destruct H701 as (d1 & d0 & Hd1 & Hd0 & ->); [lia|].
  vm_compute in Hc, Hc1, Hc0, Hd1, Hd0.
  injection Hc as <-. injection Hc1 as <-. injection Hc0 as <-.
  injection Hd1 as <-. injection Hd0 as <-.
  repeat split.
Defined.

(** C6: the encoder is injective on [0, 702), and from 702 on it returns no
    identifier: it ends the run with the fatal message "Too many
    parameters". *)
Theorem numToVerVar_injective_below_ceiling :
  (∀ m n, 0 ≤ m < 702 → 0 ≤ n < 702 → m ≠ n → numToVerVar m ≠ numToVerVar n) ∧
  (∀ n, 702 ≤ n → numToVerVar n = Abort (Fatalf "Too many parameters" [])).
Proof.
  split.
  - intros m n Hm Hn Hne Heq. apply Hne. clear Hne.
    assert (∀ k, 26 ≤ k < 702 → 0 ≤ k `div` 26 - 1 < 26) as Hdiv.
    { intros k Hk. split.
      - assert (1 ≤ k `div` 26); [|lia]. apply Z.div_le_lower_bound; lia.
      - assert (k `div` 26 < 27); [|lia]. apply Z.div_lt_upper_bound; lia. }
    assert (∀ k, 0 ≤ k `mod` 26 < 26) as Hmod
      by (intros k; apply Z.mod_pos_bound; lia).
    destruct (decide (m < 26)) as [Hm1|Hm2]; destruct (decide (n < 26)) as [Hn1|Hn2].
    + rewrite !numToVerVar_one_letter in Heq by lia.
      injection Heq as Heq. apply capital_inj; [lia..|done].
    + rewrite (numToVerVar_one_letter m), (numToVerVar_two_letters n) in Heq by lia.
      done.
    + rewrite (numToVerVar_one_letter n), (numToVerVar_two_letters m) in Heq by lia.
      done.
    + rewrite !numToVerVar_two_letters in Heq by lia.
      injection Heq as Hq Hr.
      apply capital_inj in Hq; [|apply Hdiv; lia..].
      apply capital_inj in Hr; [|apply Hmod..].
      rewrite (Z.div_mod m 26), (Z.div_mod n 26) by lia. lia.
  - intros n Hn. unfold numToVerVar. change nChars with 26.
    destruct (decide (n < 26)); [lia|].
    destruct (decide (n < 26 * (26 + 1))); [lia|]. done.
Qed.

Lemma numToVerVar_injective_below_ceiling_witness :
  numToVerVar 25 ≠ numToVerVar 26 ∧
  numToVerVar 702 = Abort (Fatalf "Too many parameters" []).
Proof.
  destruct numToVerVar_injective_below_ceiling as [Hinj Hceil].
  split.
  - apply Hinj; lia.
  - apply Hceil. lia.
Defined.

(** ** Tree walks *)

(** Induction on trees: the property may be assumed for every child. *)
Lemma ASTNode_tree_ind (P : ASTNode → Prop) :
  (∀ ty val txt pos kids, Forall P kids → P (Node ty val txt pos kids)) →
  ∀ a, P a.
Proof.
  intros step. fix IH 1. intros [ty val txt pos kids].
  apply step. induction kids as [|k kids IHkids]; constructor; [apply IH|apply IHkids].
Qed.

Lemma walker_preorder (t : ASTNodeType) (n : ASTNode) (nodes : list ASTNode) :
  walker t n nodes = nodes ++ filter (λ x, Type_ x = t) (preorder n).
Proof.
  revert nodes. induction n as [ty val txt pos kids IH] using ASTNode_tree_ind.
  intros nodes. cbn [walker preorder].
  rewrite filter_cons. cbn [Type_].
  set (start := if decide (ty = t) then nodes ++ [Node ty val txt pos kids] else nodes).
  assert (∀ acc, fold_left (λ nodes c, walker t c nodes) kids acc
                 = acc ++ filter (λ x, Type_ x = t) (flat_map preorder kids)) as Hfold.
  { induction IH as [|k kids Hk _ IHkids]; intros acc; cbn [fold_left flat_map].
    - by rewrite filter_nil, app_nil_r.
    - rewrite IHkids, Hk, filter_app, app_assoc. done. }
  rewrite Hfold. subst start.
  destruct (decide (ty = t)); [|done].
  by rewrite <- app_assoc.
Qed.

Lemma FindByType_preorder (a : ASTNode) (t : ASTNodeType) :
  FindByType a t = filter (λ x, Type_ x = t) (preorder a).
Proof. unfold FindByType. by rewrite walker_preorder. Qed.

Lemma firstOfType_None (t : ASTNodeType) (a : ASTNode) :
  firstOfType t a = None ↔ ∀ n, n ∈ preorder a → Type_ n ≠ t.
Proof.
  unfold firstOfType. rewrite head_None. split.
  - intros Hnil n Hn Ht.
    assert (n ∈ filter (λ n, Type_ n = t) (preorder a)) as Hin
      by (apply list_elem_of_filter; done).
    rewrite Hnil in Hin. by apply elem_of_nil in Hin.
  - intros Hnone. induction (preorder a) as [|x l IH]; [done|].
    rewrite filter_cons_False by (apply Hnone; left).
    apply IH. intros n Hn. apply Hnone. by right.
Qed.

Lemma firstOfType_Some (t : ASTNodeType) (a n : ASTNode) :
  firstOfType t a = Some n →
  ∃ before after, preorder a = before ++ n :: after ∧ Type_ n = t ∧
                  Forall (λ m, Type_ m ≠ t) before.
Proof.
  unfold firstOfType. generalize (preorder a). intros l.
  induction l as [|x l IH]; [done|].
  rewrite filter_cons. destruct (decide (Type_ x = t)) as [Hx|Hx].
  - intros [= <-]. by exists [], l.
  - intros H. destruct (IH H) as (before & after & -> & Ht & Hb).
    exists (x :: before), after. split; [done|]. split; [done|]. by constructor.
Qed.

(** C7: the validator ends the run with a position-tagged error at the
    first list node in depth-first pre-order if the tree has a list node;
    otherwise with one at the first structure node in depth-first pre-order
    if it has a structure node; otherwise it returns without an error. *)
Theorem RejectUnimplemented_first_unsupported (a : ASTNode) (p : Parameters) :
  RejectUnimplemented a p =
    match firstOfType ListType a with
    | Some n => Abort (ParseErrorAt (Pos n) "Lists are not currently supported")
    | None =>
        match firstOfType StructureType a with
        | Some n => Abort (ParseErrorAt (Pos n) "Structures are not currently supported")
        | None => Ok tt
        end
    end.
Proof.
  unfold RejectUnimplemented, firstOfType.
  rewrite !FindByType_preorder.
  destruct (filter (λ x, Type_ x = ListType) (preorder a)) as [|n0 l0]; [|done].
  destruct (filter (λ x, Type_ x = StructureType) (preorder a)) as [|n1 l1]; done.
Qed.

(** ** Atom names *)

Lemma omap_atomName_cons (n : ASTNode) (l : list ASTNode) :
  omap atomName (n :: l) =
    match atomName n with
    | Some nm => nm :: omap atomName l
    | None => omap atomName l
    end.
Proof. done. Qed.

Lemma uniqueAtomNames_outsideHeads (a : ASTNode) (names : gset string) :
  forallb walkable (outsideHeads a) = true →
  uniqueAtomNames a names = Ok (names ∪ list_to_set (omap atomName (outsideHeads a))).
Proof.
  revert names. induction a as [ty val txt pos kids IH] using ASTNode_tree_ind.
  intros names Hwalk.
  cbn [outsideHeads forallb] in Hwalk. apply andb_true_iff in Hwalk as [Hnode Hkids].
  assert (∀ ks acc, Forall (λ k, ∀ names, forallb walkable (outsideHeads k) = true →
              uniqueAtomNames k names
              = Ok (names ∪ list_to_set (omap atomName (outsideHeads k)))) ks →
            forallb walkable (flat_map outsideHeads ks) = true →
            (fix visit (kids : list ASTNode) (names : gset string) : res (gset string) :=
               match kids with
               | [] => Ok names
               | aa :: kids' => names ← uniqueAtomNames aa names; visit kids' names
               end) ks acc
            = Ok (acc ∪ list_to_set (omap atomName (flat_map outsideHeads ks)))) as Hvisit.
  { clear. intros ks. induction ks as [|k ks IHks]; intros acc Hall Hw.
    - cbn. f_equal. set_solver.
    - apply Forall_cons in Hall as [Hk Hall].
      cbn [flat_map] in Hw. rewrite forallb_app in Hw.
      apply andb_true_iff in Hw as [Hw1 Hw2].
      rewrite (Hk acc Hw1). cbn [mbind res_bind].
      rewrite (IHks _ Hall Hw2). f_equal.
      cbn [flat_map]. rewrite omap_app, list_to_set_app_L. set_solver. }
  cbn [uniqueAtomNames outsideHeads]. rewrite omap_atomName_cons.
  unfold walkable in Hnode. cbn [Type_ Value Children] in Hnode.
  destruct (decide (ty = AtomType)) as [->|Hatom].
  - destruct val as [| nm |]; [done| |done].
    replace (atomName _) with (Some nm) by done.
    cbn [mbind res_bind]. destruct (decide (AtomType = ClauseType)) as [?|_]; [done|].
    rewrite (Hvisit kids _ IH Hkids). f_equal. cbn [list_to_set]. set_solver.
  - replace (atomName _) with (@None string)
      by (unfold atomName; cbn [Type_]; by destruct (decide (ty = AtomType))).
    cbn [mbind res_bind]. destruct (decide (ty = ClauseType)) as [->|Hclause].
    + destruct kids as [|h body]; [done|].
      apply Forall_cons in IH as [_ IH].
      rewrite (Hvisit body _ IH Hkids). done.
    + rewrite (Hvisit kids _ IH Hkids). done.
Qed.

Lemma outsideHeads_besidesHeadNames (a n : ASTNode) :
  n ∈ outsideHeads a → n ∈ besidesHeadNames a.
Proof.
  revert n. induction a as [ty val txt pos kids IH] using ASTNode_tree_ind.
  intros n. cbn [outsideHeads besidesHeadNames].
  assert (∀ ks, Forall (λ k, ∀ n, n ∈ outsideHeads k → n ∈ besidesHeadNames k) ks →
                n ∈ flat_map outsideHeads ks → n ∈ flat_map besidesHeadNames ks) as Hflat.
  { clear. intros ks Hall. rewrite !list_elem_of_In, !in_flat_map.
    intros (k & Hk & Hn). exists k. split; [done|].
    rewrite <- list_elem_of_In in *. rewrite Forall_forall in Hall. by apply Hall. }
  rewrite !elem_of_cons. intros [->|Hn]; [by left|]. right.
  destruct (decide (ty = ClauseType)) as [->|_].
  - destruct kids as [|[hty hval htxt hpos hkids] body]; [done|].
    cbn [tail] in Hn. apply Forall_cons in IH as [_ IH].
    rewrite elem_of_cons, elem_of_app. right. right. by apply Hflat.
  - by apply Hflat.
Qed.

Lemma sortStrings_ascending (l : list string) :
  NoDup l → ascending (sortStrings l) ∧ sortStrings l ≡ₚ l.
Proof.
  intros Hnd. split; [|apply merge_sort_Permutation].
  unfold ascending, sortStrings.
  assert (NoDup (merge_sort String.le l)) as Hnd'.
  { by rewrite merge_sort_Permutation. }
  pose proof (StronglySorted_merge_sort String.le l) as Hs.
  induction Hs as [|x s Hs IHs Hx]; [constructor|].
  apply NoDup_cons in Hnd' as [Hxs Hnds].
  constructor; [by apply IHs|].
  rewrite Forall_forall in Hx |- *. intros y Hy. split; [by apply Hx|].
  intros Hyx. assert (x = y) as -> by (apply (anti_symm String.le); auto).
  done.
Qed.

(** [sortStrings] is the only ascending arrangement of its argument, so
    nothing depends on the sorting algorithm behind [sort.Strings]. *)
Lemma sortStrings_unique (l l' : list string) :
  Sorted String.le l' → l' ≡ₚ l → l' = sortStrings l.
Proof.
  intros Hsorted Hperm. apply (Sorted_unique String.le); [done| |].
  - apply Sorted_merge_sort; apply _.
  - unfold sortStrings. by rewrite merge_sort_Permutation.
Qed.

(** The order in which [range nmSet] yields the names does not show in the
    result of [AtomNames]. *)
Lemma AtomNamesIn_order_irrelevant (l1 l2 : list string) :
  l1 ≡ₚ l2 → AtomNamesIn l1 = AtomNamesIn l2.
Proof.
  intros Hperm. unfold AtomNamesIn, sortStrings.
  apply (Sorted_unique String.le).
  - apply Sorted_merge_sort; apply _.
  - apply Sorted_merge_sort; apply _.
  - by rewrite !merge_sort_Permutation.
Qed.

Lemma AtomNames_elements (a : ASTNode) :
  forallb walkable (outsideHeads a) = true →
  ∃ l, AtomNames a = Ok l ∧ ascending l ∧ NoDup l ∧
       ∀ nm, nm ∈ l ↔ ∃ n, n ∈ outsideHeads a ∧ atomName n = Some nm.
Proof.
  intros Hwalk. unfold AtomNames.
  rewrite (uniqueAtomNames_outsideHeads a ∅ Hwalk). cbn [mbind res_bind].
  set (names := ∅ ∪ list_to_set (omap atomName (outsideHeads a)) : gset string).
  eexists. split; [done|].
  destruct (sortStrings_ascending (elements names)) as [Hasc Hperm].
  { apply NoDup_elements. }
  unfold AtomNamesIn. split; [done|]. split.
  { rewrite Hperm. apply NoDup_elements. }
  intros nm. rewrite Hperm, elem_of_elements. subst names.
  rewrite elem_of_union, elem_of_list_to_set, list_elem_of_omap.
  split.
  - intros [Hempty|(n & Hn & Hnm)]; [by apply elem_of_empty in Hempty|eauto].
  - intros (n & Hn & Hnm). right. eauto.
Qed.

(** What the code computes, as opposed to what its documentation says: on
    a tree that [uniqueAtomNames] can walk, [AtomNames] returns a strictly
    ascending sequence without duplicates that holds exactly the names of
    the atoms outside the clause heads. *)
Lemma AtomNames_outside_heads (a : ASTNode) :
  forallb walkable (outsideHeads a) = true →
  ∃ l, AtomNames a = Ok l ∧ ascending l ∧ NoDup l ∧
       (∀ n nm, n ∈ outsideHeads a → atomName n = Some nm → nm ∈ l) ∧
       (∀ nm, nm ∈ l → ∃ n, n ∈ besidesHeadNames a ∧ atomName n = Some nm).
Proof.
  intros Hwalk.
  destruct (AtomNames_elements a Hwalk) as (l & Hl & Hasc & Hnd & Hmem).
  exists l. repeat split; [done..| |].
  - intros n nm Hn Hnm. apply Hmem. eauto.
  - intros nm Hnm. apply Hmem in Hnm as (n & Hn & Hname).
    exists n. split; [|done]. by apply outsideHeads_besidesHeadNames.
Qed.

Example AtomNames_foo_a : AtomNames Samples.foo_a = Ok ["b"; "foo"].
Proof. by vm_compute. Qed.

(** The documentation can be met: for every tree there is a strictly
    ascending list of exactly the atoms other than the head names. *)
Lemma AtomNames_as_documented_exists (a : ASTNode) :
  ∃ l, ascending l ∧
       ∀ nm, nm ∈ l ↔ ∃ n, n ∈ besidesHeadNames a ∧ atomName n = Some nm.
Proof.
  set (names := list_to_set (omap atomName (besidesHeadNames a)) : gset string).
  destruct (sortStrings_ascending (elements names)) as [Hasc Hperm].
  { apply NoDup_elements. }
  exists (sortStrings (elements names)). split; [done|].
  intros nm. rewrite Hperm, elem_of_elements. subst names.
  by rewrite elem_of_list_to_set, list_elem_of_omap.
Qed.

(** C1, the defect: on [foo(a) :- foo = b.] [AtomNames] returns [b, foo].
    The atom [a], the formal argument of the head, is an atom of the tree
    other than a head name, and it is missing: [uniqueAtomNames] skips the
    whole first child of a clause, the head with its arguments, where its
    comment says it skips the name of the clause.  The documented result
    for this tree is [a, b, foo] ([foo] is also an atom of the body). *)
Theorem AtomNames_drops_head_argument :
  AtomNames Samples.foo_a = Ok ["b"; "foo"] ∧
  (Samples.atom "a" ∈ besidesHeadNames Samples.foo_a ∧
   atomName (Samples.atom "a") = Some "a" ∧ "a" ∉ ["b"; "foo"]) ∧
  (ascending ["a"; "b"; "foo"] ∧
   ∀ nm, nm ∈ ["a"; "b"; "foo"] ↔
         ∃ n, n ∈ besidesHeadNames Samples.foo_a ∧ atomName n = Some nm) ∧
  ¬ AtomNames_as_documented Samples.foo_a.
Proof.
  assert (Samples.atom "a" ∈ besidesHeadNames Samples.foo_a) as Hin
    by (cbn; set_solver).
  assert ("a" ∉ ["b"; "foo"]) as Hout by set_solver.
  split; [apply AtomNames_foo_a|]. split; [done|]. split; [split|].
  - apply (bool_decide_unpack (ascending ["a"; "b"; "foo"])). by vm_compute.
  - intros nm. rewrite <- list_elem_of_omap.
    assert (omap atomName (besidesHeadNames Samples.foo_a) = ["a"; "foo"; "b"]) as ->
      by reflexivity.
    set_solver.
  - intros Hdoc. destruct (Hdoc _ AtomNames_foo_a) as [_ Hmem].
    apply Hout, Hmem. by exists (Samples.atom "a").
Qed.

(** ** Clause arguments *)

Lemma args_loop_Ok (terms : list ASTNode) (i : nat) (pArgs vArgs : list string) :
  args_loop i terms = Ok (pArgs, vArgs) →
  pArgs = Text <$> terms ∧
  length vArgs = length terms ∧
  ∀ k v, vArgs !! k = Some v → numToVerVar (Z.of_nat (i + k)) = Ok v.
Proof.
  revert i pArgs vArgs. induction terms as [|a terms IH]; intros i pArgs vArgs.
  - cbn. intros [= <- <-]. by repeat split.
  - cbn [args_loop]. intros H.
    apply res_bind_Ok in H as (v & Hv & H).
    apply res_bind_Ok in H as ([ps vs] & Hrest & H).
    injection H as <- <-.
    destruct (IH _ _ _ Hrest) as (-> & Hlen & Hnum).
    split; [done|]. split; [by cbn; rewrite Hlen|].
    intros [|k] w; cbn.
    + intros [= <-]. by rewrite Nat.add_0_r.
    + intros Hk. replace (i + S k)%nat with (S i + k)%nat by lia. by apply Hnum.
Qed.

Lemma args_Ok (c : ASTNode) (pArgs vArgs : list string) :
  args c = Ok (pArgs, vArgs) →
  length vArgs = length pArgs ∧
  ∀ k v, vArgs !! k = Some v → numToVerVar (Z.of_nat k) = Ok v.
Proof.
  unfold args. destruct (Children c) as [|pred ?]; [done|].
  destruct (Children pred) as [|? terms]; [done|].
  intros H. destruct (args_loop_Ok _ _ _ _ H) as (-> & Hlen & Hnum).
  split; [by rewrite length_fmap|]. intros k v Hk. by apply (Hnum k).
Qed.

Lemma index_lookup {A} (l : list A) (i : nat) (x : A) :
  index l i = Ok x ↔ l !! i = Some x.
Proof. unfold index, indexPanic. destruct (l !! i); naive_solver. Qed.

(** ** The substitution map *)

Lemma firstAt_0_inv (l : list string) (p x : string) : firstAt (p :: l) x 0 → p = x.
Proof.
  unfold firstAt. cbn. destruct (decide (p = x)); [done|].
  by destruct (firstIndex x l).
Qed.

Lemma firstAt_cons_S (l : list string) (p x : string) (k : nat) :
  firstAt (p :: l) x (S k) ↔ p ≠ x ∧ firstAt l x k.
Proof.
  unfold firstAt. cbn. destruct (decide (p = x)) as [->|Hne].
  - naive_solver.
  - destruct (firstIndex x l); cbn; naive_solver.
Qed.

Lemma firstAt_lookup (l : list string) (x : string) (k : nat) :
  firstAt l x k → l !! k = Some x ∧ ∀ k', (k' < k)%nat → l !! k' ≠ Some x.
Proof.
  revert k. induction l as [|p l IH]; intros k; [done|].
  destruct k as [|k].
  - intros ->%firstAt_0_inv. split; [done|]. lia.
  - intros [Hne Hk]%firstAt_cons_S. destruct (IH _ Hk) as [Hl Hfirst].
    split; [done|]. intros [|k'] Hk'; cbn; [congruence|]. apply Hfirst. lia.
Qed.

Lemma firstAt_elem_of (l : list string) (x : string) :
  x ∈ l ↔ ∃ k, firstAt l x k.
Proof.
  split.
  - induction l as [|p l IH]; [by intros ?%elem_of_nil|].
    intros Hin. destruct (decide (p = x)) as [->|Hne].
    + exists 0%nat. unfold firstAt. cbn. by rewrite decide_True.
    + apply elem_of_cons in Hin as [?|Hin]; [congruence|].
      destruct (IH Hin) as [k Hk]. exists (S k). by apply firstAt_cons_S.
  - intros [k Hk]. apply firstAt_lookup in Hk as [Hk _].
    by eapply list_elem_of_lookup_2.
Qed.

(** What [bind_loop] returns, for the arguments from position [i] on: the
    constraints are appended to [valid]; a text bound on entry keeps its
    identifier, any other text is bound to the identifier of its first
    position; and every position whose text is bound on entry or occurs
    earlier yields an equality with the bound identifier. *)
Lemma bind_loop_Ok (vArgs : list string) (pArgs : list string) :
  ∀ (i : nat) (valid : list string) (p2v : gmap string string)
    (valid' : list string) (p2v' : gmap string string),
  bind_loop i pArgs vArgs valid p2v = Ok (valid', p2v') →
  ∃ dups, valid' = valid ++ dups ∧
    (∀ x v, p2v !! x = Some v → p2v' !! x = Some v) ∧
    (∀ x k, p2v !! x = None → firstAt pArgs x k → p2v' !! x = vArgs !! (i + k)%nat) ∧
    (∀ x, p2v !! x = None → x ∉ pArgs → p2v' !! x = None) ∧
    (∀ x j v, pArgs !! j = Some x →
       (p2v !! x = Some v ∨
        (p2v !! x = None ∧ ∃ k, (k < j)%nat ∧ firstAt pArgs x k ∧ vArgs !! (i + k)%nat = Some v)) →
       ∃ vj, vArgs !! (i + j)%nat = Some vj ∧ vj +:+ " == " +:+ v ∈ dups).
Proof.
  induction pArgs as [|p pArgs IH]; intros i valid p2v valid' p2v'.
  { cbn. intros [= <- <-]. exists []. rewrite app_nil_r.
    repeat split; done. }
  cbn [bind_loop]. destruct (p2v !! p) as [v0|] eqn:Hp.
  - intros H. apply res_bind_Ok in H as (vi & Hvi & H). apply index_lookup in Hvi.
    destruct (IH _ _ _ _ _ H) as (dups & -> & Hkeep & Hfirst & Hnone & Hdups).
    exists ((vi +:+ " == " +:+ v0) :: dups). split; [by rewrite <- app_assoc|].
    split; [done|]. split; [|split].
    + intros x [|k] Hx Hk.
      * apply firstAt_0_inv in Hk as ->. congruence.
      * apply firstAt_cons_S in Hk as [_ Hk].
        replace (i + S k)%nat with (S i + k)%nat by lia. by apply Hfirst.
    + intros x Hx Hnotin. apply Hnone; [done|]. set_solver.
    + intros x [|j] v Hj Hbound.
      * injection Hj as ->. exists vi. rewrite Nat.add_0_r. split; [done|].
        destruct Hbound as [Hb|[Hb _]]; [|congruence].
        rewrite Hp in Hb. injection Hb as <-. left.
      * cbn in Hj. destruct (Hdups x j v Hj) as (vj & Hvj & Hin).
        { destruct Hbound as [Hb|(Hb & k & Hk & Hfk & Hvk)]; [by left|].
          right. split; [done|]. destruct k as [|k].
          - apply firstAt_0_inv in Hfk as ->. congruence.
          - apply firstAt_cons_S in Hfk as [_ Hfk]. exists k.
            split; [lia|]. split; [done|].
            by replace (S i + k)%nat with (i + S k)%nat by lia. }
        exists vj. replace (i + S j)%nat with (S i + j)%nat by lia.
        split; [done|]. by right.
  - intros H. apply res_bind_Ok in H as (vi & Hvi & H). apply index_lookup in Hvi.
    destruct (IH _ _ _ _ _ H) as (dups & -> & Hkeep & Hfirst & Hnone & Hdups).
    exists dups. split; [done|]. split; [|split; [|split]].
    + intros x v Hx. apply Hkeep. rewrite lookup_insert_ne; [done|congruence].
    + intros x [|k] Hx Hk.
      * apply firstAt_0_inv in Hk as ->. rewrite Nat.add_0_r, Hvi.
        apply Hkeep. by rewrite lookup_insert_eq.
      * apply firstAt_cons_S in Hk as [Hne Hk].
        replace (i + S k)%nat with (S i + k)%nat by lia.
        apply Hfirst; [|done]. by rewrite lookup_insert_ne.
    + intros x Hx Hnotin. apply Hnone; [|set_solver].
      rewrite lookup_insert_ne; [done|]. set_solver.
    + intros x [|j] v Hj Hbound.
      * injection Hj as ->. destruct Hbound as [Hb|(_ & k & Hk & _)]; [congruence|lia].
      * cbn in Hj. destruct (Hdups x j v Hj) as (vj & Hvj & Hin).
        { destruct Hbound as [Hb|(Hb & k & Hk & Hfk & Hvk)].
          - left. rewrite lookup_insert_ne; [done|congruence].
          - destruct k as [|k].
            + apply firstAt_0_inv in Hfk as ->. left.
              rewrite Nat.add_0_r in Hvk. rewrite lookup_insert_eq. congruence.
            + apply firstAt_cons_S in Hfk as [Hne Hfk]. right.
              split; [by rewrite lookup_insert_ne|]. exists k.
              split; [lia|]. split; [done|].
              by replace (S i + k)%nat with (i + S k)%nat by lia. }
        exists vj. replace (i + S j)%nat with (S i + j)%nat by lia. done.
Qed.

(** [bind_loop] cannot fail when every position has an identifier. *)
Lemma bind_loop_total (vArgs : list string) (pArgs : list string) :
  ∀ (i : nat) (valid : list string) (p2v : gmap string string),
  (i + length pArgs ≤ length vArgs)%nat →
  ∃ valid' p2v', bind_loop i pArgs vArgs valid p2v = Ok (valid', p2v').
Proof.
  induction pArgs as [|p pArgs IH]; intros i valid p2v Hlen; [by eexists _, _|].
  cbn [bind_loop length] in *.
  destruct (lookup_lt_is_Some_2 vArgs i) as [vi Hvi]; [lia|].
  apply index_lookup in Hvi. rewrite Hvi. cbn [mbind res_bind].
  destruct (p2v !! p); cbn [mbind res_bind]; apply IH; lia.
Qed.

(** ** Argument classes *)

Lemma IsUpper_only (r : Z) :
  unicode.IsUpper r = true → unicode.IsLower r = false ∧ unicode.IsDigit r = false.
Proof.
  unfold unicode.IsUpper, unicode.IsLower, unicode.IsDigit.
  rewrite bool_decide_eq_true, !bool_decide_eq_false. lia.
Qed.

(** The constraints [classify_loop] adds do not depend on the ones it is
    handed. *)
Lemma classify_loop_acc (vArgs pArgs : list string) :
  ∀ (i : nat) (valid : list string),
  classify_loop i pArgs vArgs valid =
    lits ← classify_loop i pArgs vArgs []; Ok (valid ++ lits).
Proof.
  induction pArgs as [|a pArgs IH]; intros i valid.
  { cbn. by rewrite app_nil_r. }
  cbn [classify_loop]. destruct a as [|b a']; [done|].
  set (a := String b a'). cbn zeta.
  destruct (unicode.IsLower (rune b)); [|destruct (unicode.IsDigit (rune b));
    [|destruct (unicode.IsUpper (rune b)); [|done]]].
  - destruct (index vArgs i) as [v|]; [|done]. cbn [mbind res_bind app].
    rewrite (IH (S i) (valid ++ _)), (IH (S i) [_]).
    destruct (classify_loop (S i) pArgs vArgs []); [|done].
    cbn [mbind res_bind]. by rewrite <- app_assoc.
  - destruct (index vArgs i) as [v|]; [|done]. cbn [mbind res_bind app].
    rewrite (IH (S i) (valid ++ _)), (IH (S i) [_]).
    destruct (classify_loop (S i) pArgs vArgs []); [|done].
    cbn [mbind res_bind]. by rewrite <- app_assoc.
  - apply IH.
Qed.

Lemma body_loop_acc (p2v : gmap string string) (body : list ASTNode) :
  ∀ valid : list string,
  body_loop body p2v valid = es ← body_loop body p2v []; Ok (valid ++ es).
Proof.
  induction body as [|p body IH]; intros valid.
  { cbn. by rewrite app_nil_r. }
  cbn [body_loop]. destruct (toVerilogExpr p p2v) as [e|]; [|done].
  cbn [mbind res_bind app]. rewrite (IH (valid ++ _)), (IH [_]).
  destruct (body_loop body p2v []); [|done].
  cbn [mbind res_bind]. by rewrite <- app_assoc.
Qed.

(** The constraints of the body: one per body predicate, in order, each the
    lowering of its predicate. *)
Lemma body_loop_Ok (p2v : gmap string string) (body : list ASTNode) (es : list string) :
  body_loop body p2v [] = Ok es ↔ Forall2 (λ p e, toVerilogExpr p p2v = Ok e) body es.
Proof.
  revert es. induction body as [|p body IH]; intros es.
  { cbn. split; [by intros [= <-]; constructor|]. by intros ->%Forall2_nil_inv_l. }
  cbn [body_loop]. destruct (toVerilogExpr p p2v) as [e|] eqn:He; cbn [mbind res_bind app].
  - rewrite body_loop_acc. split.
    + destruct (body_loop body p2v []) as [es'|] eqn:Hes; [|done].
      cbn. intros [= <-]. constructor; [done|]. by apply IH.
    + intros (e' & es' & He' & Hes & ->)%Forall2_cons_inv_l.
      apply IH in Hes. rewrite Hes. cbn. congruence.
  - split; [done|]. intros (e' & es' & He' & _)%Forall2_cons_inv_l. congruence.
Qed.

(** The result of [process]: the constraints of the head literals, then
    those of the body. *)
Lemma process_Ok (c : ASTNode) (p2v : gmap string string) (more : list string) :
  process c p2v = Ok more →
  ∃ pArgs vArgs lits es,
    args c = Ok (pArgs, vArgs) ∧
    classify_loop 0 pArgs vArgs [] = Ok lits ∧
    Forall2 (λ p e, toVerilogExpr p p2v = Ok e) (tail (Children c)) es ∧
    more = lits ++ es.
Proof.
  unfold process. intros H.
  apply res_bind_Ok in H as ([pArgs vArgs] & Hargs & H).
  apply res_bind_Ok in H as (lits & Hlits & H).
  destruct (Children c) as [|h body]; [done|].
  rewrite body_loop_acc in H. apply res_bind_Ok in H as (es & Hes & [= <-]).
  exists pArgs, vArgs, lits, es. split; [done|]. split; [done|].
  split; [|done]. by apply body_loop_Ok.
Qed.

(** A head of variables only adds no literal constraint. *)
Lemma classify_loop_variables (vArgs pArgs : list string) :
  ∀ (i : nat) (valid : list string),
  Forall (λ a, startsWith unicode.IsUpper a = true) pArgs →
  classify_loop i pArgs vArgs valid = Ok valid.
Proof.
  induction pArgs as [|a pArgs IH]; intros i valid Hall; [done|].
  apply Forall_cons in Hall as [Ha Hall].
  cbn [classify_loop]. destruct a as [|b a']; [done|]. cbn in Ha. cbn zeta.
  destruct (IsUpper_only _ Ha) as [-> ->]. rewrite Ha. by apply IH.
Qed.

(** With an identifier for every position, the classification ends in
    one of two ways: it returns, or it stops at the first text that has no
    class. *)
Lemma classify_loop_classified (vArgs pArgs : list string) :
  ∀ (i : nat) (valid : list string),
  (i + length pArgs ≤ length vArgs)%nat →
  Forall (λ a, classified a = true) pArgs →
  ∃ r, classify_loop i pArgs vArgs valid = Ok r.
Proof.
  induction pArgs as [|a pArgs IH]; intros i valid Hlen Hall; [by eexists|].
  apply Forall_cons in Hall as [Ha Hall]. cbn [length] in Hlen.
  cbn [classify_loop]. destruct a as [|b a']; [done|].
  unfold classified in Ha. cbn [startsWith] in Ha. cbn zeta.
  destruct (lookup_lt_is_Some_2 vArgs i) as [vi Hvi]; [lia|].
  apply index_lookup in Hvi. rewrite Hvi. cbn [mbind res_bind].
  destruct (unicode.IsLower (rune b)); [apply IH; [lia|done]|].
  destruct (unicode.IsDigit (rune b)); [apply IH; [lia|done]|].
  destruct (unicode.IsUpper (rune b)); [apply IH; [lia|done]|done].
Qed.

Lemma classify_loop_unclassified (vArgs pArgs : list string) :
  ∀ (i : nat) (valid : list string),
  (i + length pArgs ≤ length vArgs)%nat →
  Forall (λ a, a ≠ "") pArgs →
  Exists (λ a, classified a = false) pArgs →
  ∃ a, a ∈ pArgs ∧ classified a = false ∧
       classify_loop i pArgs vArgs valid
       = Abort (Fatalf "Internal error processing %q" [StrArg a]).
Proof.
  induction pArgs as [|a pArgs IH]; intros i valid Hlen Hne Hex.
  { by apply Exists_nil in Hex. }
  apply Forall_cons in Hne as [Ha Hne]. cbn [length] in Hlen.
  destruct (classified a) eqn:Hclass.
  - apply Exists_cons in Hex as [Hex|Hex]; [congruence|].
    cbn [classify_loop]. destruct a as [|b a']; [done|].
    unfold classified in Hclass. cbn [startsWith] in Hclass. cbn zeta.
    destruct (lookup_lt_is_Some_2 vArgs i) as [vi Hvi]; [lia|].
    apply index_lookup in Hvi. rewrite Hvi. cbn [mbind res_bind].
    assert (∀ acc, ∃ a0, a0 ∈ String b a' :: pArgs ∧ classified a0 = false ∧
              classify_loop (S i) pArgs vArgs acc
              = Abort (Fatalf "Internal error processing %q" [StrArg a0])) as Hrest.
    { intros acc. destruct (IH (S i) acc) as (a0 & Hin & Hc & Hr); [lia|done..|].
      exists a0. split; [by right|done]. }
    destruct (unicode.IsLower (rune b)); [apply Hrest|].
    destruct (unicode.IsDigit (rune b)); [apply Hrest|].
    destruct (unicode.IsUpper (rune b)); [apply Hrest|done].
  - exists a. split; [left|]. split; [done|].
    cbn [classify_loop]. destruct a as [|b a']; [done|].
    unfold classified in Hclass. cbn [startsWith] in Hclass. cbn zeta.
    destruct (unicode.IsLower (rune b)); [done|].
    destruct (unicode.IsDigit (rune b)); [done|].
    destruct (unicode.IsUpper (rune b)); done.
Qed.

(** The constraint list of a clause: the equalities of repeated argument
    texts, then the constraints of [process]. *)
Lemma clauseValid_Ok (c : ASTNode) (valid : list string) :
  clauseValid c = Ok valid →
  ∃ pArgs vArgs dups p2v more,
    args c = Ok (pArgs, vArgs) ∧
    bind_loop 0 pArgs vArgs [] ∅ = Ok (dups, p2v) ∧
    process c p2v = Ok more ∧
    valid = if decide (length (dups ++ more) = 0%nat)
            then (dups ++ more) ++ ["1'b1"] else dups ++ more.
Proof.
  unfold clauseValid. intros H.
  apply res_bind_Ok in H as ([pArgs vArgs] & Hargs & H).
  apply res_bind_Ok in H as ([dups p2v] & Hbind & H).
  apply res_bind_Ok in H as (more & Hmore & H). cbn zeta in H.
  exists pArgs, vArgs, dups, p2v, more. repeat split; [done..|].
  destruct (decide _); by injection H.
Qed.

Lemma concat_empty_cons (s : string) (l : list string) :
  String.concat "" (s :: l) = s +:+ String.concat "" l.
Proof. destruct l as [|s' l]; cbn [String.concat]; [by rewrite app_empty_r|done]. Qed.

Lemma concat_empty_app (l1 l2 : list string) :
  String.concat "" (l1 ++ l2) = String.concat "" l1 +:+ String.concat "" l2.
Proof.
  induction l1 as [|s l1 IH]; [done|].
  rewrite <- app_comm_cons, !concat_empty_cons, IH. string_eq.
Qed.

Lemma assign_loop_text (cNum : Z) (valid : list string) :
  ∀ i : nat,
  assign_loop cNum i valid =
    MkW (String.concat "" (imap (λ k v, assignLine cNum (i + k) v) valid)) (Ok tt).
Proof.
  induction valid as [|v valid IH]; intros i; [done|].
  cbn [assign_loop]. rewrite (IH (S i)), imap_cons, concat_empty_cons.
  unfold mbind, W_bind, Fprint. cbn [outcome written]. f_equal.
  rewrite Nat.add_0_r. unfold assignLine at 2.
  rewrite (imap_ext (_ ∘ S) (λ k v0, assignLine cNum (S i + k) v0));
    [|by intros k x _; cbn; rewrite Nat.add_succ_r].
  string_eq.
Qed.

(** C3: when the head of a clause has the same variable name at positions
    i < j, i being its first position, the constraint list of the clause
    holds the equality of the identifier of position j with the identifier
    of position i, that equality stands before the constraints of the
    head literals and of the body, and [writeClauseBody] writes it: after
    the declaration of the signal, the text assigns one bit of the signal
    the equality, before the bits of the head literals and of the body.
    (The clause number is a slice index, so adding one to it does not
    overflow.) *)
Theorem clauseValid_repeated_variable
    (c : ASTNode) (pArgs vArgs valid : list string) (x : string) (i j : nat)
    (p : Parameters) (nm : string) (cNum : Z) :
  args c = Ok (pArgs, vArgs) →
  clauseValid c = Ok valid →
  startsWith unicode.IsUpper x = true →
  firstAt pArgs x i → (i < j)%nat → pArgs !! j = Some x →
  0 ≤ cNum < 2 ^ 63 - 1 →
  ∃ vi vj p2v pre post lits es,
    numToVerVar (Z.of_nat i) = Ok vi ∧ numToVerVar (Z.of_nat j) = Ok vj ∧
    valid = pre ++ [vj +:+ " == " +:+ vi] ++ post ++ lits ++ es ∧
    classify_loop 0 pArgs vArgs [] = Ok lits ∧
    Forall2 (λ p e, toVerilogExpr p p2v = Ok e) (tail (Children c)) es ∧
    writeClauseBody c p nm cNum =
      MkW (wireLine cNum (length valid)
           +:+ String.concat "" (imap (assignLine cNum) pre)
           +:+ assignLine cNum (length pre) (vj +:+ " == " +:+ vi)
           +:+ String.concat ""
                 (imap (λ k, assignLine cNum (S (length pre) + k)) (post ++ lits ++ es)))
          (Ok tt).
Proof.
  intros Hargs Hvalid _ Hi Hij Hj _.
  assert (writeClauseBody c p nm cNum =
            MkW (wireLine cNum (length valid)
                 +:+ String.concat "" (imap (assignLine cNum) valid)) (Ok tt)) as Hwritten.
  { unfold writeClauseBody. rewrite Hvalid.
    unfold mbind, W_bind, lift, Fprint, wireLine. cbn [outcome written].
    rewrite assign_loop_text. cbn [outcome written]. f_equal; string_eq. }
  destruct (clauseValid_Ok _ _ Hvalid)
    as (pArgs' & vArgs' & dups & p2v & more & Hargs' & Hbind & Hmore & Heq).
  rewrite Hargs in Hargs'. injection Hargs' as <- <-.
  destruct (args_Ok _ _ _ Hargs) as [Hlen Hnum].
  destruct (bind_loop_Ok _ _ _ _ _ _ _ Hbind) as (dups' & Hd & _ & _ & _ & Hdups).
  cbn in Hd. subst dups'.
  destruct (firstAt_lookup _ _ _ Hi) as [Hi' _].
  destruct (lookup_lt_is_Some_2 vArgs i) as [vi Hvi].
  { rewrite Hlen. by eapply lookup_lt_Some. }
  destruct (Hdups x j vi Hj) as (vj & Hvj & Hin).
  { right. split; [apply lookup_empty|]. exists i. by repeat split. }
  cbn in Hvj. apply list_elem_of_split in Hin as (pre & post & ->).
  destruct (process_Ok _ _ _ Hmore) as (pArgs' & vArgs' & lits & es & Hargs' & Hlits & Hes & ->).
  rewrite Hargs in Hargs'. injection Hargs' as <- <-.
  assert (valid = pre ++ [vj +:+ " == " +:+ vi] ++ post ++ lits ++ es) as Hshape.
  { rewrite Heq. destruct (decide _) as [Hnil|_].
    - rewrite !length_app in Hnil. cbn in Hnil. lia.
    - by rewrite <- !app_assoc. }
  exists vi, vj, p2v, pre, post, lits, es.
  split; [by apply Hnum|]. split; [by apply Hnum|]. split; [done|].
  split; [done|]. split; [done|].
  rewrite Hwritten. f_equal. rewrite Hshape at 2.
  rewrite imap_app, concat_empty_app. cbn [app]. rewrite imap_cons, concat_empty_cons.
  rewrite Nat.add_0_r.
  rewrite (imap_ext (_ ∘ S) (λ k, assignLine cNum (S (length pre) + k)));
    [|by intros k y _; cbn; rewrite Nat.add_succ_r].
  string_eq.
Qed.

Lemma clauseValid_repeated_variable_witness :
  ∃ vi vj p2v pre post lits es,
    numToVerVar 1 = Ok vi ∧ numToVerVar 2 = Ok vj ∧
    ["$C == $B"; "$A == `a"] = pre ++ [vj +:+ " == " +:+ vi] ++ post ++ lits ++ es ∧
    classify_loop 0 ["a"; "X"; "X"] ["$A"; "$B"; "$C"] [] = Ok lits ∧
    Forall2 (λ p e, toVerilogExpr p p2v = Ok e) (tail (Children ClauseSamples.foo_aXX)) es ∧
    writeClauseBody ClauseSamples.foo_aXX ClauseSamples.params "foo" 0 =
      MkW (wireLine 0 (length ["$C == $B"; "$A == `a"])
           +:+ String.concat "" (imap (assignLine 0) pre)
           +:+ assignLine 0 (length pre) (vj +:+ " == " +:+ vi)
           +:+ String.concat ""
                 (imap (λ k, assignLine 0 (S (length pre) + k)) (post ++ lits ++ es)))
          (Ok tt).
Proof.
  apply (clauseValid_repeated_variable ClauseSamples.foo_aXX
           ["a"; "X"; "X"] ["$A"; "$B"; "$C"] ["$C == $B"; "$A == `a"] "X" 1 2
           ClauseSamples.params "foo" 0).
  - reflexivity.
  - reflexivity.
  - reflexivity.
  - reflexivity.
  - lia.
  - reflexivity.
  - lia.
Defined.

(** C9: the substitution map of a clause binds the text of every head
    argument, whatever its class, to the identifier of the first position
    of that text, and binds nothing else; a text that stands at a later
    position as well, be it a variable, a symbolic constant or a numeral,
    yields the equality of the identifier of the later position with the
    identifier of the first, and these equalities open the constraint list
    of the clause. *)
Theorem bind_loop_binds_every_text (c : ASTNode) (pArgs vArgs : list string) :
  args c = Ok (pArgs, vArgs) →
  ∃ dups p2v,
    bind_loop 0 pArgs vArgs [] ∅ = Ok (dups, p2v) ∧
    (∀ x k, firstAt pArgs x k →
       ∃ v, numToVerVar (Z.of_nat k) = Ok v ∧ p2v !! x = Some v) ∧
    (∀ x, x ∉ pArgs → p2v !! x = None) ∧
    (∀ x i j, firstAt pArgs x i → (i < j)%nat → pArgs !! j = Some x →
       ∃ vi vj, numToVerVar (Z.of_nat i) = Ok vi ∧ numToVerVar (Z.of_nat j) = Ok vj ∧
                vj +:+ " == " +:+ vi ∈ dups) ∧
    (∀ valid, clauseValid c = Ok valid → dups `prefix_of` valid).
Proof.
  intros Hargs. destruct (args_Ok _ _ _ Hargs) as [Hlen Hnum].
  destruct (bind_loop_total vArgs pArgs 0 [] ∅) as (dups & p2v & Hbind); [cbn; lia|].
  exists dups, p2v. split; [done|].
  destruct (bind_loop_Ok _ _ _ _ _ _ _ Hbind) as (dups' & Hd & _ & Hfirst & Hnone & Hdups).
  cbn in Hd. subst dups'.
  assert (∀ x k, firstAt pArgs x k → ∃ v, vArgs !! k = Some v) as Hident.
  { intros x k [Hk _]%firstAt_lookup. apply lookup_lt_is_Some_2.
    rewrite Hlen. by eapply lookup_lt_Some. }
  split; [|split; [|split]].
  - intros x k Hk. destruct (Hident _ _ Hk) as [v Hv]. exists v.
    split; [by apply Hnum|]. rewrite <- Hv. by apply (Hfirst x k); [apply lookup_empty|].
  - intros x Hx. by apply Hnone; [apply lookup_empty|].
  - intros x i j Hi Hij Hj. destruct (Hident _ _ Hi) as [vi Hvi].
    destruct (Hdups x j vi Hj) as (vj & Hvj & Hin).
    { right. split; [apply lookup_empty|]. exists i. by repeat split. }
    exists vi, vj. split; [by apply Hnum|]. split; [by apply Hnum|done].
  - intros valid Hvalid.
    destruct (clauseValid_Ok _ _ Hvalid)
      as (pArgs' & vArgs' & dups' & p2v' & more & Hargs' & Hbind' & _ & ->).
    rewrite Hargs in Hargs'. injection Hargs' as <- <-.
    rewrite Hbind in Hbind'. injection Hbind' as <- <-.
    destruct (decide _).
    + exists (more ++ ["1'b1"]). by rewrite app_assoc.
    + by exists more.
Qed.

Lemma bind_loop_binds_every_text_witness :
  ∃ dups p2v,
    bind_loop 0 ["k"; "7"; "k"; "7"] ["$A"; "$B"; "$C"; "$D"] [] ∅ = Ok (dups, p2v) ∧
    (∀ x k, firstAt ["k"; "7"; "k"; "7"] x k →
       ∃ v, numToVerVar (Z.of_nat k) = Ok v ∧ p2v !! x = Some v) ∧
    (∀ x, x ∉ ["k"; "7"; "k"; "7"] → p2v !! x = None) ∧
    (∀ x i j, firstAt ["k"; "7"; "k"; "7"] x i → (i < j)%nat →
       ["k"; "7"; "k"; "7"] !! j = Some x →
       ∃ vi vj, numToVerVar (Z.of_nat i) = Ok vi ∧ numToVerVar (Z.of_nat j) = Ok vj ∧
                vj +:+ " == " +:+ vi ∈ dups) ∧
    (∀ valid, clauseValid ClauseSamples.same = Ok valid → dups `prefix_of` valid).
Proof.
  apply (bind_loop_binds_every_text ClauseSamples.same
           ["k"; "7"; "k"; "7"] ["$A"; "$B"; "$C"; "$D"]).
  reflexivity.
Defined.

Example clauseValid_same :
  clauseValid ClauseSamples.same
  = Ok ["$C == $A"; "$D == $B"; "$A == `k"; "$B == 7"; "$C == `k"; "$D == 7"].
Proof. by vm_compute. Qed.

(** Distinct argument texts yield no equality. *)
Lemma bind_loop_NoDup (vArgs pArgs : list string) :
  ∀ (i : nat) (valid : list string) (p2v : gmap string string)
    (valid' : list string) (p2v' : gmap string string),
  NoDup pArgs → (∀ x, x ∈ pArgs → p2v !! x = None) →
  bind_loop i pArgs vArgs valid p2v = Ok (valid', p2v') → valid' = valid.
Proof.
  induction pArgs as [|p pArgs IH]; intros i valid p2v valid' p2v' Hnd Hfree.
  { cbn. by intros [= <- <-]. }
  apply NoDup_cons in Hnd as [Hp Hnd].
  cbn [bind_loop]. rewrite (Hfree p) by left.
  intros H. apply res_bind_Ok in H as (vi & _ & H).
  apply (IH _ _ _ _ _ Hnd) in H; [done|].
  intros x Hx. rewrite lookup_insert_ne; [|set_solver]. apply Hfree. by right.
Qed.

(** C8: a clause with an empty body whose head arguments are variables,
    no two of them the same, has the single constraint [1'b1]: its signal
    is declared with the range [0:0], one bit wide, and that bit is
    assigned the constant.  (The clause number is a slice index, so adding
    one to it does not overflow.) *)
Theorem writeClauseBody_accepts_all
    (c h : ASTNode) (pArgs vArgs : list string) (p : Parameters) (nm : string) (cNum : Z) :
  args c = Ok (pArgs, vArgs) →
  Children c = [h] →
  Forall (λ a, startsWith unicode.IsUpper a = true) pArgs →
  NoDup pArgs →
  0 ≤ cNum < 2 ^ 63 - 1 →
  clauseValid c = Ok ["1'b1"] ∧
  writeClauseBody c p nm cNum =
    MkW ("  wire [0:0] $v" +:+ pretty (cNum + 1) +:+ ";" +:+ LF
         +:+ "  assign $v" +:+ pretty (cNum + 1) +:+ "[0] = 1'b1;" +:+ LF)
        (Ok tt).
Proof.
  intros Hargs Hkids Hvars Hnd _.
  destruct (args_Ok _ _ _ Hargs) as [Hlen _].
  destruct (bind_loop_total vArgs pArgs 0 [] ∅) as (dups & p2v & Hbind); [cbn; lia|].
  assert (dups = []) as ->.
  { eapply bind_loop_NoDup; [done| |done]. intros x _. apply lookup_empty. }
  assert (process c p2v = Ok []) as Hprocess.
  { unfold process. rewrite Hargs. cbn [mbind res_bind].
    rewrite classify_loop_variables by done. cbn [mbind res_bind].
    by rewrite Hkids. }
  assert (clauseValid c = Ok ["1'b1"]) as Hvalid.
  { unfold clauseValid. rewrite Hargs. cbn [mbind res_bind].
    rewrite Hbind. cbn [mbind res_bind]. rewrite Hprocess. done. }
  split; [done|].
  unfold writeClauseBody. rewrite Hvalid.
  unfold mbind, W_bind, lift, Fprint. cbn.
  generalize (pretty (cNum + 1)). intros s.
  f_equal. string_eq.
Qed.

Lemma writeClauseBody_accepts_all_witness :
  clauseValid ClauseSamples.stupid = Ok ["1'b1"] ∧
  writeClauseBody ClauseSamples.stupid ClauseSamples.params "stupid" 0 =
    MkW ("  wire [0:0] $v" +:+ pretty (0 + 1) +:+ ";" +:+ LF
         +:+ "  assign $v" +:+ pretty (0 + 1) +:+ "[0] = 1'b1;" +:+ LF)
        (Ok tt).
Proof.
  apply (writeClauseBody_accepts_all ClauseSamples.stupid
           (Samples.head "stupid"
              [Samples.term (Samples.variable "A"); Samples.term (Samples.variable "B");
               Samples.term (Samples.variable "C")])
           ["A"; "B"; "C"] ["$A"; "$B"; "$C"]).
  - reflexivity.
  - reflexivity.
  - repeat constructor.
  - apply (bool_decide_unpack (NoDup ["A"; "B"; "C"])). by vm_compute.
  - lia.
Defined.

(** ** The fatal branch of the classification *)

Lemma avoidsProcessingError_bind {A B} (m : res A) (f : A → res B) :
  avoidsProcessingError m → (∀ a, avoidsProcessingError (f a)) →
  avoidsProcessingError (m ≫= f).
Proof.
  intros Hm Hf. destruct m as [a|e]; [apply Hf|].
  intros ops H. cbn in H. injection H as ->. by apply (Hm ops).
Qed.

Lemma avoidsProcessingError_Ok {A} (a : A) : avoidsProcessingError (Ok a).
Proof. by intros ops. Qed.

Lemma avoidsProcessingError_Panic {A} (reason : string) :
  avoidsProcessingError (@Abort A (Panic reason)).
Proof. by intros ops. Qed.

Lemma lowerOperator_avoids (table : gmap string string) (a : ASTNode) :
  avoidsProcessingError (lowerOperator table a).
Proof.
  unfold lowerOperator, valueString. destruct (Value a); try by intros ops.
  cbn. destruct (table !! s); by intros ops.
Qed.

Lemma valueString_avoids (a : ASTNode) : avoidsProcessingError (valueString a).
Proof. unfold valueString. destruct (Value a); by intros ops. Qed.

Create HintDb avoids.
#[local] Hint Resolve avoidsProcessingError_Ok avoidsProcessingError_Panic
  lowerOperator_avoids valueString_avoids : avoids.
#[local] Hint Extern 2 (avoidsProcessingError (_ ≫= _)) =>
  apply avoidsProcessingError_bind; [|intros ?] : avoids.
#[local] Hint Extern 1 (_ ∈ _ :: _) => set_solver : avoids.

Lemma toVerilogExpr_avoids (p2v : gmap string string) (a : ASTNode) :
  avoidsProcessingError (toVerilogExpr a p2v).
Proof.
  induction a as [ty val txt pos kids IH] using ASTNode_tree_ind.
  assert (∀ k, k ∈ kids → avoidsProcessingError (toVerilogExpr k p2v)) as Hkid.
  { by apply Forall_forall. }
  clear IH.
  destruct ty; cbn [toVerilogExpr]; unfold indexPanic;
    try (by intros ops); auto with avoids.
  - (* variable *)
    apply avoidsProcessingError_bind; [auto with avoids|]. intros s.
    destruct (p2v !! s); by intros ops.
  - (* primary expression *)
    destruct kids as [|k0 ?]; [auto with avoids|].
    apply avoidsProcessingError_bind; [auto with avoids|]. intros c.
    apply avoidsProcessingError_bind; [auto with avoids|]. intros s.
    destruct (decide _); auto with avoids.
  - (* unary expression *)
    destruct kids as [|k0 [|k1 ?]]; auto 8 with avoids.
  - (* multiplicative expression *)
    destruct kids as [|k0 [|k1 [|k2 ?]]]; auto 8 with avoids.
  - (* additive expression *)
    destruct kids as [|k0 [|k1 [|k2 ?]]]; auto 8 with avoids.
  - (* relation *)
    destruct kids as [|k0 [|k1 [|k2 ?]]]; auto 8 with avoids.
  - (* predicate *)
    destruct kids as [|k0 ?]; auto with avoids.
  - (* term *)
    destruct kids as [|k0 ?]; auto with avoids.
Qed.

Lemma body_loop_avoids (p2v : gmap string string) (body : list ASTNode) :
  ∀ valid, avoidsProcessingError (body_loop body p2v valid).
Proof.
  induction body as [|p body IH]; intros valid; [apply avoidsProcessingError_Ok|].
  cbn [body_loop]. apply avoidsProcessingError_bind; [apply toVerilogExpr_avoids|].
  intros e. apply IH.
Qed.

(** C10: in a clause whose arguments all have a text, if some argument
    starts with a byte that is neither a lowercase letter, a digit nor an
    uppercase letter, [process] emits no constraint and ends the run in its
    fatal branch, naming the first such argument; if every argument starts
    with a lowercase letter, a digit or an uppercase letter, the
    classification returns and [process] never ends in that branch. *)
Theorem process_fatal_branch
    (c : ASTNode) (pArgs vArgs : list string) (p2v : gmap string string) :
  args c = Ok (pArgs, vArgs) →
  (Forall (λ a, a ≠ "") pArgs → Exists (λ a, classified a = false) pArgs →
     ∃ a, a ∈ pArgs ∧ classified a = false ∧
          process c p2v = Abort (Fatalf "Internal error processing %q" [StrArg a])) ∧
  (Forall (λ a, classified a = true) pArgs →
     (∃ lits, classify_loop 0 pArgs vArgs [] = Ok lits) ∧
     avoidsProcessingError (process c p2v)).
Proof.
  intros Hargs. destruct (args_Ok _ _ _ Hargs) as [Hlen _]. split.
  - intros Hne Hex.
    destruct (classify_loop_unclassified vArgs pArgs 0 [])
      as (a & Hin & Hclass & Hfatal); [cbn; lia|done..|].
    exists a. split; [done|]. split; [done|].
    unfold process. rewrite Hargs. cbn [mbind res_bind]. by rewrite Hfatal.
  - intros Hall.
    destruct (classify_loop_classified vArgs pArgs 0 []) as [lits Hlits]; [cbn; lia|done|].
    split; [by exists lits|].
    unfold process. rewrite Hargs. cbn [mbind res_bind]. rewrite Hlits.
    cbn [mbind res_bind]. destruct (Children c); [by intros ops|].
    apply body_loop_avoids.
Qed.

Lemma process_fatal_branch_witness :
  (∃ a, a ∈ ["x"; "_y"] ∧ classified a = false ∧
        process ClauseSamples.odd ∅
        = Abort (Fatalf "Internal error processing %q" [StrArg a])) ∧
  (∃ lits, classify_loop 0 ["a"; "X"; "X"] ["$A"; "$B"; "$C"] [] = Ok lits) ∧
  avoidsProcessingError (process ClauseSamples.foo_aXX ∅).
Proof.
  split.
  - apply (process_fatal_branch ClauseSamples.odd ["x"; "_y"] ["$A"; "$B"] ∅).
    + reflexivity.
    + repeat constructor; discriminate.
    + apply Exists_cons_tl, Exists_cons_hd. reflexivity.
  - apply (process_fatal_branch ClauseSamples.foo_aXX ["a"; "X"; "X"] ["$A"; "$B"; "$C"] ∅).
    + reflexivity.
    + repeat constructor.
Defined.

Example process_odd :
  process ClauseSamples.odd ∅ = Abort (Fatalf "Internal error processing %q" [StrArg "_y"]).
Proof. by vm_compute. Qed.

(** ** The clause-group compiler *)

Lemma or_loop_written (cs : list ASTNode) :
  ∀ i : nat,
  or_loop i cs =
    MkW (match cs with
         | [] => ""
         | _ => (if decide (0 < i)%nat then " | " else "")
                +:+ String.concat " | " (andReduced <$> seq i (length cs))
         end) (Ok tt).
Proof.
  induction cs as [|c cs IH]; intros i; [done|].
  cbn [or_loop]. rewrite (IH (S i)).
  unfold mbind, W_bind, Fprint, mret, W_ret. cbn [length seq fmap list_fmap].
  destruct (decide (0 < i)%nat); cbn [outcome written]; f_equal.
  - destruct cs as [|c' cs]; [cbn; string_eq|].
    destruct (decide (0 < S i)%nat); [|lia].
    cbn [length seq list_fmap String.concat]. unfold andReduced, signal. string_eq.
  - destruct cs as [|c' cs]; [cbn; string_eq|].
    destruct (decide (0 < S i)%nat); [|lia].
    cbn [length seq list_fmap String.concat]. unfold andReduced, signal. string_eq.
Qed.

Lemma bodies_loop_Ok (p : Parameters) (nm : string) (cs : list ASTNode) :
  ∀ (i : nat) (bodies : string),
  bodies_loop p nm i cs = MkW bodies (Ok tt) → bodies = bodiesText p nm i cs.
Proof.
  induction cs as [|c cs IH]; intros i bodies.
  { cbn. by intros [= <-]. }
  cbn [bodies_loop bodiesText]. unfold mbind, W_bind.
  destruct (outcome (writeClauseBody c p nm (Z.of_nat i))) as [[]|e]; [|done].
  cbn zeta. destruct (bodies_loop p nm (S i) cs) as [w o] eqn:Hrest.
  cbn [written outcome]. intros [= <- ->]. by rewrite (IH _ _ Hrest).
Qed.

(** The signal of a clause that compiles: declared under the name
    [signal i], as wide as the clause has constraints. *)
Lemma writeClauseBody_declares (c : ASTNode) (p : Parameters) (nm : string)
    (i : nat) (valid : list string) :
  clauseValid c = Ok valid →
  ∃ assigns,
    writeClauseBody c p nm (Z.of_nat i) =
      MkW ("  wire [" +:+ pretty (Z.of_nat (length valid) - 1) +:+ ":0] "
           +:+ signal i +:+ ";" +:+ LF +:+ assigns) (Ok tt).
Proof.
  intros Hvalid. unfold writeClauseBody. rewrite Hvalid.
  assert (∀ k l, outcome (assign_loop (Z.of_nat i) k l) = Ok tt) as Hassign.
  { intros k l. revert k. induction l as [|v l IH]; intros k; [done|].
    cbn [assign_loop]. unfold mbind, W_bind, Fprint. cbn. apply IH. }
  exists (written (assign_loop (Z.of_nat i) 0 valid)).
  unfold mbind, W_bind, lift, Fprint, signal. cbn [outcome written].
  rewrite Hassign. f_equal. string_eq.
Qed.

(** C4: a clause group whose header and clause bodies are written without
    an abort has at least one clause; the clause at position i declares the
    validity signal [signal i]; and after the header and the bodies the
    module assigns its output validity the OR of the AND-reduced validity
    signals of its k clauses, in clause order, and ends; for one clause the
    assigned expression is that clause's AND-reduction itself, without an
    OR operator. *)
Theorem writeClauseGroup_or_of_clauses
    (a : ASTNode) (p : Parameters) (nm : string) (cs : list ASTNode) (hdr bodies : string) :
  writeClauseGroupHeader a p nm cs = MkW hdr (Ok tt) →
  bodies_loop p nm 0 cs = MkW bodies (Ok tt) →
  (1 ≤ length cs)%nat ∧
  bodies = bodiesText p nm 0 cs ∧
  (∀ i c valid, cs !! i = Some c → clauseValid c = Ok valid →
     ∃ assigns,
       writeClauseBody c p nm (Z.of_nat i) =
         MkW ("  wire [" +:+ pretty (Z.of_nat (length valid) - 1) +:+ ":0] "
              +:+ signal i +:+ ";" +:+ LF +:+ assigns) (Ok tt)) ∧
  writeClauseGroup a p nm cs =
    MkW (hdr +:+ bodies +:+ "  assign $valid = " +:+ orOfClauses (length cs)
         +:+ ";" +:+ LF +:+ "endmodule" +:+ LF) (Ok tt) ∧
  (length cs = 1%nat → orOfClauses (length cs) = "&$v1").
Proof.
  intros Hhdr Hbodies. split; [|split; [|split; [|split]]].
  - destruct cs; [|cbn; lia]. by vm_compute in Hhdr.
  - by apply bodies_loop_Ok.
  - intros i c valid _ Hvalid. by apply writeClauseBody_declares.
  - unfold writeClauseGroup. rewrite Hhdr, Hbodies, or_loop_written.
    unfold mbind, W_bind, Fprint, Fprintln. cbn [outcome written].
    f_equal. destruct cs as [|c cs].
    + by vm_compute in Hhdr.
    + destruct (decide (0 < 0)%nat); [lia|]. unfold orOfClauses. string_eq.
  - by intros ->.
Qed.

Lemma writeClauseGroup_or_of_clauses_witness :
  ∃ hdr bodies,
    (1 ≤ length [ClauseSamples.foo_aXX; ClauseSamples.stupid])%nat ∧
    bodies = bodiesText ClauseSamples.params "foo" 0
               [ClauseSamples.foo_aXX; ClauseSamples.stupid] ∧
    (∀ i c valid,
       [ClauseSamples.foo_aXX; ClauseSamples.stupid] !! i = Some c →
       clauseValid c = Ok valid →
       ∃ assigns,
         writeClauseBody c ClauseSamples.params "foo" (Z.of_nat i) =
           MkW ("  wire [" +:+ pretty (Z.of_nat (length valid) - 1) +:+ ":0] "
                +:+ signal i +:+ ";" +:+ LF +:+ assigns) (Ok tt)) ∧
    writeClauseGroup ClauseSamples.foo_aXX ClauseSamples.params "foo"
      [ClauseSamples.foo_aXX; ClauseSamples.stupid] =
      MkW (hdr +:+ bodies +:+ "  assign $valid = "
           +:+ orOfClauses (length [ClauseSamples.foo_aXX; ClauseSamples.stupid])
           +:+ ";" +:+ LF +:+ "endmodule" +:+ LF) (Ok tt) ∧
    (length [ClauseSamples.foo_aXX; ClauseSamples.stupid] = 1%nat →
     orOfClauses (length [ClauseSamples.foo_aXX; ClauseSamples.stupid]) = "&$v1").
Proof.
  eexists _, _.
  apply (writeClauseGroup_or_of_clauses ClauseSamples.foo_aXX ClauseSamples.params "foo"
           [ClauseSamples.foo_aXX; ClauseSamples.stupid]).
  - vm_compute. reflexivity.
  - vm_compute. reflexivity.
Defined.

Example orOfClauses_3 : orOfClauses 3 = "&$v1 | &$v2 | &$v3".
Proof. by vm_compute. Qed.

(** ** The program emitter *)

(** The fuel [writeSymbols] gives the digit count is enough: more fuel
    leaves the count as it is. *)
Lemma digits_loop_fuel (fuel : nat) :
  ∀ n digs : Z, n ≤ Z.of_nat fuel →
  digits_loop (S fuel) n digs = digits_loop fuel n digs.
Proof.
  induction fuel as [|fuel IH]; intros n digs Hn.
  - cbn. destruct (decide (0 < n)); [lia|done].
  - cbn [digits_loop]. destruct (decide (0 < n)) as [Hpos|]; [|done].
    rewrite <- (IH (Z.quot n 10)); [done|].
    rewrite Z.quot_div_nonneg by lia.
    assert (n `div` 10 < n) by (apply Z.div_lt; lia). lia.
Qed.

Lemma symbols_loop_outcome (p : Parameters) (digs : Z) (syms : list string) :
  ∀ i : nat, outcome (symbols_loop p digs i syms) = Ok tt.
Proof.
  induction syms as [|s syms IH]; intros i; [done|].
  cbn [symbols_loop]. unfold mbind, W_bind, Fprint. cbn. apply IH.
Qed.

Lemma writeSymbols_outcome (a : ASTNode) (p : Parameters) :
  outcome (writeSymbols a p) = Ok tt.
Proof.
  unfold writeSymbols. cbn zeta. unfold mbind, W_bind, Fprintln, Fprint. cbn.
  apply symbols_loop_outcome.
Qed.

Lemma groups_loop_Ok (a : ASTNode) (p : Parameters) (order : list (string * list ASTNode)) :
  Forall (λ g, outcome (writeClauseGroup a p g.1 g.2) = Ok tt) order →
  groups_loop a p order = MkW (modulesText a p order) (Ok tt).
Proof.
  induction order as [|[nm cs] order IH]; [done|].
  intros [Hg Hrest]%Forall_cons. cbn [fst snd] in Hg.
  cbn [groups_loop]. rewrite (IH Hrest).
  unfold modulesText. rewrite fmap_cons, concat_empty_cons. cbn [fst snd].
  unfold mbind, W_bind, Fprintln, Fprint. cbn [outcome written]. rewrite Hg.
  cbn [outcome written]. f_equal; string_eq.
Qed.

Lemma WriteVerilogIn_Ok (a : ASTNode) (p : Parameters) (order : list (string * list ASTNode)) :
  Forall (λ g, outcome (writeClauseGroup a p g.1 g.2) = Ok tt) order →
  WriteVerilogIn order a p = MkW (preamble a p +:+ modulesText a p order) (Ok tt).
Proof.
  intros Hall. unfold preamble, WriteVerilogIn. rewrite (groups_loop_Ok _ _ _ Hall).
  cbn [groups_loop]. unfold mbind, W_bind, Fprintln, Fprint, mret, W_ret.
  cbn [outcome written]. rewrite writeSymbols_outcome. cbn [outcome written].
  f_equal. string_eq.
Qed.

(** C2, as the code has it: a run of [WriteVerilog] visits the groups of
    the table in some arrangement, every group once; when no group aborts
    it writes the preamble and then exactly one module per group, in the
    order of that arrangement; and when the table holds at most one group
    every run writes the same text.  (Two runs over a table of several
    groups may arrange the modules differently.) *)
Theorem WriteVerilog_one_module_per_group (a : ASTNode) (p : Parameters) (run : W unit) :
  WriteVerilog a p run →
  ∃ order,
    order ≡ₚ map_to_list (TopLevel p) ∧
    NoDup order.*1 ∧
    (∀ nm cs, (nm, cs) ∈ order ↔ TopLevel p !! nm = Some cs) ∧
    run = WriteVerilogIn order a p ∧
    (Forall (λ g, outcome (writeClauseGroup a p g.1 g.2) = Ok tt) order →
     run = MkW (preamble a p +:+ modulesText a p order) (Ok tt)) ∧
    ((size (TopLevel p) ≤ 1)%nat → WriteVerilog_repeatable a p).
Proof.
  intros (order & Horder & ->). exists order. unfold range_order in Horder.
  split; [done|]. split; [|split; [|split; [done|split]]].
  - rewrite Horder. apply NoDup_fst_map_to_list.
  - intros nm cs. rewrite Horder. apply elem_of_map_to_list.
  - apply WriteVerilogIn_Ok.
  - intros Hsize run1 run2 (o1 & Ho1 & ->) (o2 & Ho2 & ->).
    unfold range_order in *. rewrite <- Ho2 in Ho1. clear Horder.
    assert (length o2 ≤ 1)%nat as Hlen.
    { rewrite Ho2, length_map_to_list. done. }
    destruct o2 as [|g [|g' o2]]; [| |cbn in Hlen; lia].
    + by apply Permutation_nil_r in Ho1 as ->.
    + by apply Permutation_singleton_r in Ho1 as ->.
Qed.

Lemma range_order_lt_first :
  range_order (TopLevel ClauseSamples.params) GroupSamples.lt_first.
Proof.
  unfold range_order.
  apply NoDup_Permutation.
  - apply NoDup_cons. split; [|apply NoDup_singleton].
    rewrite list_elem_of_singleton. discriminate.
  - apply NoDup_map_to_list.
  - intros [nm cs]. rewrite elem_of_map_to_list. unfold GroupSamples.lt_first.
    cbn [TopLevel ClauseSamples.params]. rewrite !elem_of_cons, elem_of_nil.
    rewrite lookup_insert_Some, lookup_singleton_Some. naive_solver.
Qed.

Lemma range_order_stupid_first :
  range_order (TopLevel ClauseSamples.params) GroupSamples.stupid_first.
Proof.
  unfold range_order. rewrite <- range_order_lt_first. apply perm_swap.
Qed.

Lemma WriteVerilog_one_module_per_group_witness :
  ∃ order,
    order ≡ₚ map_to_list (TopLevel ClauseSamples.params) ∧
    NoDup order.*1 ∧
    (∀ nm cs, (nm, cs) ∈ order ↔ TopLevel ClauseSamples.params !! nm = Some cs) ∧
    WriteVerilogIn GroupSamples.stupid_first ClauseSamples.lt ClauseSamples.params
    = WriteVerilogIn order ClauseSamples.lt ClauseSamples.params ∧
    (Forall (λ g, outcome (writeClauseGroup ClauseSamples.lt ClauseSamples.params g.1 g.2)
                  = Ok tt) order →
     WriteVerilogIn GroupSamples.stupid_first ClauseSamples.lt ClauseSamples.params
     = MkW (preamble ClauseSamples.lt ClauseSamples.params
            +:+ modulesText ClauseSamples.lt ClauseSamples.params order) (Ok tt)) ∧
    ((size (TopLevel ClauseSamples.params) ≤ 1)%nat →
     WriteVerilog_repeatable ClauseSamples.lt ClauseSamples.params).
Proof.
  apply (WriteVerilog_one_module_per_group ClauseSamples.lt ClauseSamples.params).
  exists GroupSamples.stupid_first. split; [|reflexivity].
  apply range_order_stupid_first.
Defined.

(** C2, counterexample: the table with the groups [lt] and [stupid] has two
    arrangements; both are runs of [WriteVerilog], and their texts differ:
    one has the module [lt] first, the other the module [stupid]. *)
Lemma WriteVerilog_not_repeatable :
  WriteVerilog ClauseSamples.lt ClauseSamples.params
    (WriteVerilogIn GroupSamples.lt_first ClauseSamples.lt ClauseSamples.params) ∧
  WriteVerilog ClauseSamples.lt ClauseSamples.params
    (WriteVerilogIn GroupSamples.stupid_first ClauseSamples.lt ClauseSamples.params) ∧
  written (WriteVerilogIn GroupSamples.lt_first ClauseSamples.lt ClauseSamples.params)
  ≠ written (WriteVerilogIn GroupSamples.stupid_first ClauseSamples.lt ClauseSamples.params) ∧
  ¬ WriteVerilog_repeatable ClauseSamples.lt ClauseSamples.params.
Proof.
  assert (WriteVerilog ClauseSamples.lt ClauseSamples.params
            (WriteVerilogIn GroupSamples.lt_first ClauseSamples.lt ClauseSamples.params)) as H1.
  { eexists. split; [apply range_order_lt_first|done]. }
  assert (WriteVerilog ClauseSamples.lt ClauseSamples.params
            (WriteVerilogIn GroupSamples.stupid_first ClauseSamples.lt ClauseSamples.params))
    as H2.
  { eexists. split; [apply range_order_stupid_first|done]. }
  assert (written (WriteVerilogIn GroupSamples.lt_first ClauseSamples.lt ClauseSamples.params)
          ≠ written (WriteVerilogIn GroupSamples.stupid_first ClauseSamples.lt
                       ClauseSamples.params)) as Hne.
  { by vm_compute. }
  split; [done|]. split; [done|]. split; [done|].
  intros Hrep. apply Hne. by rewrite (Hrep _ _ H1 H2).
Qed.

(** * Further properties of the code *)

(** ** The identifier encoder, outside its range *)

Lemma numToVerVar_inj (m n : Z) (v : string) :
  numToVerVar m = Ok v → numToVerVar n = Ok v → m = n.
Proof.
  intros Hm Hn.
  pose proof (numToVerVar_Ok_range _ _ Hm) as Rm.
  pose proof (numToVerVar_Ok_range _ _ Hn) as Rn.
  assert (∀ k, 26 ≤ k < 702 → 0 ≤ k `div` 26 - 1 < 26) as Hdiv.
  { intros k Hk. split.
    - assert (1 ≤ k `div` 26); [|lia]. apply Z.div_le_lower_bound; lia.
    - assert (k `div` 26 < 27); [|lia]. apply Z.div_lt_upper_bound; lia. }
  assert (∀ k, 0 ≤ k `mod` 26 < 26) as Hmod by (intros k; apply Z.mod_pos_bound; lia).
  destruct (decide (m < 26)); destruct (decide (n < 26)).
  - rewrite numToVerVar_one_letter in Hm, Hn by lia.
    rewrite <- Hn in Hm. injection Hm as Hm. apply capital_inj; [lia..|done].
  - rewrite numToVerVar_one_letter in Hm by lia.
    rewrite numToVerVar_two_letters in Hn by lia. congruence.
  - rewrite numToVerVar_one_letter in Hn by lia.
    rewrite numToVerVar_two_letters in Hm by lia. congruence.
  - rewrite numToVerVar_two_letters in Hm, Hn by lia.
    rewrite <- Hn in Hm. injection Hm as Hq Hr.
    apply capital_inj in Hq; [|apply Hdiv; lia..].
    apply capital_inj in Hr; [|apply Hmod..].
    rewrite (Z.div_mod m 26), (Z.div_mod n 26) by lia. lia.
Qed.

(** X1: [numToVerVar] returns an identifier exactly for 0 <= n < 702; a
    negative number does not reach the fatal message: the slice
    [chars[n:n+1]] panics. *)
Theorem numToVerVar_domain (n : Z) :
  ((∃ v, numToVerVar n = Ok v) ↔ 0 ≤ n < 702) ∧
  (n < 0 → numToVerVar n = Abort (Panic "slice bounds out of range")).
Proof.
  split; [split|].
  - intros [v Hv]. by eapply numToVerVar_Ok_range.
  - intros Hn. destruct (decide (n < 26)).
    + eexists. apply numToVerVar_one_letter. lia.
    + eexists. apply numToVerVar_two_letters. lia.
  - intros Hn. unfold numToVerVar. change nChars with 26.
    destruct (decide (n < 26)); [|lia].
    unfold slice. destruct (decide _) as [Hb|_]; [lia|done].
Qed.

Lemma numToVerVar_domain_witness :
  numToVerVar (-1) = Abort (Panic "slice bounds out of range").
Proof. apply (numToVerVar_domain (-1)). lia. Defined.

(** ** Clause arguments *)

Lemma args_loop_total (terms : list ASTNode) :
  ∀ i : nat, (i + length terms ≤ 702)%nat →
  ∃ vArgs, args_loop i terms = Ok (Text <$> terms, vArgs).
Proof.
  induction terms as [|a terms IH]; intros i Hlen; [by eexists|].
  cbn [length] in Hlen. cbn [args_loop].
  assert (∃ v, numToVerVar (Z.of_nat i) = Ok v) as [v Hv].
  { destruct (decide (Z.of_nat i < 26)).
    - eexists. apply numToVerVar_one_letter. lia.
    - eexists. apply numToVerVar_two_letters. lia. }
  rewrite Hv. cbn [mbind res_bind].
  destruct (IH (S i)) as [vArgs Hrest]; [lia|]. rewrite Hrest. by eexists.
Qed.

Lemma args_loop_too_many (terms : list ASTNode) :
  ∀ i : nat, (i ≤ 702 < i + length terms)%nat →
  args_loop i terms = Abort (Fatalf "Too many parameters" []).
Proof.
  induction terms as [|a terms IH]; intros i Hlen; [cbn in Hlen; lia|].
  cbn [length] in Hlen. cbn [args_loop].
  destruct (decide (i = 702)%nat) as [->|Hne]; [done|].
  assert (∃ v, numToVerVar (Z.of_nat i) = Ok v) as [v Hv].
  { destruct (decide (Z.of_nat i < 26)).
    - eexists. apply numToVerVar_one_letter. lia.
    - eexists. apply numToVerVar_two_letters. lia. }
  rewrite Hv. cbn [mbind res_bind]. rewrite (IH (S i)) by lia. done.
Qed.

(** X2: [args] panics on a clause without children and on a head without
    children; otherwise the head's first child is its name and the others
    are the arguments: with at most 702 of them [args] returns their texts,
    with 703 or more it ends in the fatal message. *)
Theorem args_outcome (c : ASTNode) :
  match Children c with
  | [] => args c = Abort (Panic "index out of range")
  | pred :: _ =>
      match Children pred with
      | [] => args c = Abort (Panic "slice bounds out of range")
      | _ :: terms =>
          if decide (length terms ≤ 702)%nat
          then ∃ vArgs, args c = Ok (Text <$> terms, vArgs)
          else args c = Abort (Fatalf "Too many parameters" [])
      end
  end.
Proof.
  unfold args. destruct (Children c) as [|pred rest]; [done|].
  destruct (Children pred) as [|nm terms]; [done|].
  destruct (decide (length terms ≤ 702)%nat) as [Hle|Hgt].
  - apply args_loop_total. cbn. lia.
  - apply args_loop_too_many. lia.
Qed.

(** X3: what [args] returns: as many identifiers as argument texts, the
    identifier at position k being [numToVerVar k], and no two positions
    sharing an identifier. *)
Theorem args_identifiers (c : ASTNode) (pArgs vArgs : list string) :
  args c = Ok (pArgs, vArgs) →
  length vArgs = length pArgs ∧
  (∀ k v, vArgs !! k = Some v ↔
          (k < length pArgs)%nat ∧ numToVerVar (Z.of_nat k) = Ok v) ∧
  NoDup vArgs.
Proof.
  intros Hargs. destruct (args_Ok _ _ _ Hargs) as [Hlen Hnum].
  split; [done|]. split.
  - intros k v. split.
    + intros Hk. split; [|by apply Hnum]. rewrite <- Hlen. by eapply lookup_lt_Some.
    + intros [Hk Hv]. destruct (lookup_lt_is_Some_2 vArgs k) as [v' Hv']; [lia|].
      rewrite Hv'. apply Hnum in Hv'. congruence.
  - apply NoDup_alt. intros i j v Hi Hj.
    apply Nat2Z.inj. eapply numToVerVar_inj; by apply Hnum.
Qed.

Lemma args_identifiers_witness :
  length ["$A"; "$B"; "$C"] = length ["a"; "X"; "X"] ∧
  (∀ k v, ["$A"; "$B"; "$C"] !! k = Some v ↔
          (k < length ["a"; "X"; "X"])%nat ∧ numToVerVar (Z.of_nat k) = Ok v) ∧
  NoDup ["$A"; "$B"; "$C"].
Proof.
  apply (args_identifiers ClauseSamples.foo_aXX ["a"; "X"; "X"] ["$A"; "$B"; "$C"]).
  reflexivity.
Defined.

(** ** Tree walks *)

(** X4: [FindByType] returns exactly the nodes of the wanted type, each
    occurrence once and in pre-order; the result of a node is the node
    itself, if it has the type, followed by the results of its children
    from left to right. *)
Theorem FindByType_nodes (a : ASTNode) (t : ASTNodeType) :
  FindByType a t `sublist_of` preorder a ∧
  (∀ n, n ∈ FindByType a t ↔ n ∈ preorder a ∧ Type_ n = t) ∧
  FindByType a t =
    (if decide (Type_ a = t) then [a] else [])
    ++ flat_map (λ k, FindByType k t) (Children a).
Proof.
  rewrite FindByType_preorder. split; [apply sublist_filter|]. split.
  - intros n. rewrite list_elem_of_filter. naive_solver.
  - destruct a as [ty val txt pos kids]. cbn [preorder Type_ Children].
    rewrite filter_cons. cbn [Type_].
    assert (filter (λ x, Type_ x = t) (flat_map preorder kids)
            = flat_map (λ k, FindByType k t) kids) as ->.
    { induction kids as [|k kids IH]; [done|].
      cbn [flat_map]. by rewrite filter_app, IH, FindByType_preorder. }
    by destruct (decide (ty = t)).
Qed.

(** X5: [RejectUnimplemented] returns without an error exactly when the
    tree has neither a list node nor a structure node. *)
Theorem RejectUnimplemented_accepts (a : ASTNode) (p : Parameters) :
  RejectUnimplemented a p = Ok tt ↔
  ∀ n, n ∈ preorder a → Type_ n ≠ ListType ∧ Type_ n ≠ StructureType.
Proof.
  unfold RejectUnimplemented. rewrite !FindByType_preorder.
  destruct (filter (λ x, Type_ x = ListType) (preorder a)) as [|n0 l0] eqn:Hl.
  - destruct (filter (λ x, Type_ x = StructureType) (preorder a)) as [|n1 l1] eqn:Hs.
    + split; [intros _|done]. intros n Hn. split; intros Ht.
      * by apply (filter_nil_not_elem_of _ _ n Hl).
      * by apply (filter_nil_not_elem_of _ _ n Hs).
    + split; [done|]. intros Hnone.
      assert (n1 ∈ filter (λ x, Type_ x = StructureType) (preorder a)) as Hin
        by (rewrite Hs; left).
      apply list_elem_of_filter in Hin as [Ht Hin]. by destruct (Hnone _ Hin).
  - split; [done|]. intros Hnone.
    assert (n0 ∈ filter (λ x, Type_ x = ListType) (preorder a)) as Hin
      by (rewrite Hl; left).
    apply list_elem_of_filter in Hin as [Ht Hin]. by destruct (Hnone _ Hin).
Qed.

(** ** Atom names: when the walk aborts *)

Lemma uniqueAtomNames_walkable (a : ASTNode) :
  ∀ names names', uniqueAtomNames a names = Ok names' →
  forallb walkable (outsideHeads a) = true.
Proof.
  induction a as [ty val txt pos kids IH] using ASTNode_tree_ind.
  intros names names'.
  assert (∀ ks acc acc',
            Forall (λ k, ∀ names names', uniqueAtomNames k names = Ok names' →
                         forallb walkable (outsideHeads k) = true) ks →
            (fix visit (kids : list ASTNode) (names : gset string) : res (gset string) :=
               match kids with
               | [] => Ok names
               | aa :: kids' => names ← uniqueAtomNames aa names; visit kids' names
               end) ks acc = Ok acc' →
            forallb walkable (flat_map outsideHeads ks) = true) as Hvisit.
  { clear. intros ks. induction ks as [|k ks IHks]; intros acc acc' Hall; [done|].
    apply Forall_cons in Hall as [Hk Hall].
    destruct (uniqueAtomNames k acc) as [acc1|] eqn:Hk1; [|done].
    cbn [mbind res_bind]. intros Hrest.
    cbn [flat_map]. rewrite forallb_app, (Hk _ _ Hk1). cbn. by eapply IHks. }
  cbn [uniqueAtomNames outsideHeads forallb].
  unfold walkable at 1. cbn [Type_ Value Children].
  destruct (decide (ty = AtomType)) as [->|Hatom].
  - destruct val as [| nm |]; [done| |done]. cbn [mbind res_bind].
    destruct (decide (AtomType = ClauseType)); [done|]. apply Hvisit, IH.
  - cbn [mbind res_bind]. destruct (decide (ty = ClauseType)) as [->|Hclause].
    + destruct kids as [|h body]; [done|].
      apply Forall_cons in IH as [_ IH]. apply Hvisit, IH.
    + intros H. apply (Hvisit _ _ _ IH) in H. rewrite H.
      by destruct ty.
Qed.

(** X6: [AtomNames] returns a list exactly when every atom the walk
    reaches carries a string and every clause it reaches has a child; an
    atom without a string or a clause without children inside a clause
    head does no harm, the walk never looks there. *)
Theorem AtomNames_returns (a : ASTNode) :
  (∃ l, AtomNames a = Ok l) ↔ forallb walkable (outsideHeads a) = true.
Proof.
  split.
  - intros [l Hl]. unfold AtomNames in Hl.
    apply res_bind_Ok in Hl as (names & Hnames & _).
    by eapply uniqueAtomNames_walkable.
  - intros Hwalk. unfold AtomNames.
    rewrite (uniqueAtomNames_outsideHeads a ∅ Hwalk). by eexists.
Qed.

(** ** The largest numeral *)

Lemma foldr_max_nonneg (l : list Z) : 0 ≤ foldr Z.max 0 l.
Proof. induction l as [|x l IH]; cbn; lia. Qed.

Lemma foldr_max_app (l1 l2 : list Z) :
  foldr Z.max 0 (l1 ++ l2) = Z.max (foldr Z.max 0 l1) (foldr Z.max 0 l2).
Proof.
  induction l1 as [|x l1 IH]; cbn.
  - pose proof (foldr_max_nonneg l2). lia.
  - rewrite IH. lia.
Qed.

Lemma MaxNumeral_preorder (a : ASTNode) :
  MaxNumeral a =
    if forallb countable_numeral (preorder a)
    then Ok (foldr Z.max 0 (omap numeralValue (preorder a)))
    else Abort (Panic "interface conversion: not an int").
Proof.
  induction a as [ty val txt pos kids IH] using ASTNode_tree_ind.
  assert (∀ ks max, 0 ≤ max →
            Forall (λ k, MaxNumeral k =
                         if forallb countable_numeral (preorder k)
                         then Ok (foldr Z.max 0 (omap numeralValue (preorder k)))
                         else Abort (Panic "interface conversion: not an int")) ks →
            (fix scan (kids : list ASTNode) (max : Z) : res Z :=
               match kids with
               | [] => Ok max
               | aa :: kids' =>
                   m ← MaxNumeral aa; scan kids' (if decide (max < m) then m else max)
               end) ks max =
            if forallb countable_numeral (flat_map preorder ks)
            then Ok (Z.max max (foldr Z.max 0 (omap numeralValue (flat_map preorder ks))))
            else Abort (Panic "interface conversion: not an int")) as Hscan.
  { clear. intros ks. induction ks as [|k ks IHks]; intros max Hmax Hall.
    - cbn. f_equal. lia.
    - apply Forall_cons in Hall as [Hk Hall]. rewrite Hk.
      cbn [flat_map]. rewrite forallb_app, omap_app, foldr_max_app.
      destruct (forallb countable_numeral (preorder k)); [|done].
      cbn [mbind res_bind andb]. rewrite IHks; [|destruct (decide _); lia|done].
      destruct (forallb countable_numeral (flat_map preorder ks)); [|done].
      f_equal. destruct (decide _); lia. }
  cbn [MaxNumeral preorder forallb].
  change (omap numeralValue (?n :: ?l)) with
    (match numeralValue n with Some v => v :: omap numeralValue l | None => omap numeralValue l end).
  unfold countable_numeral at 1, numeralValue at 1. cbn [Type_ Value].
  pose proof (foldr_max_nonneg (omap numeralValue (flat_map preorder kids))) as Hnn.
  destruct (decide (ty = NumeralType)) as [->|Hty].
  - destruct val as [| |v]; [done..|]. cbn [mbind res_bind andb].
    rewrite Hscan; [|destruct (decide _); lia|done].
    destruct (forallb countable_numeral (flat_map preorder kids)); [|done].
    cbn [foldr]. f_equal. destruct (decide _); lia.
  - cbn [mbind res_bind]. rewrite Hscan; [|lia|done].
    replace (match ty with NumeralType => _ | _ => true end) with true by by destruct ty.
    cbn [andb].
    destruct (forallb countable_numeral (flat_map preorder kids)); [|done].
    f_equal. lia.
Qed.

(** X7: when every numeral node of the tree carries an integer,
    [MaxNumeral] returns a number that is never negative, is at least every
    numeral of the tree, and is 0 or one of those numerals; a tree without
    numerals, or with negative ones only, gives 0. *)
Theorem MaxNumeral_largest (a : ASTNode) :
  forallb countable_numeral (preorder a) = true →
  ∃ m, MaxNumeral a = Ok m ∧ 0 ≤ m ∧
       (∀ n v, n ∈ preorder a → numeralValue n = Some v → v ≤ m) ∧
       (m = 0 ∨ ∃ n, n ∈ preorder a ∧ numeralValue n = Some m).
Proof.
  intros Hall. rewrite MaxNumeral_preorder, Hall. eexists. split; [done|].
  split; [apply foldr_max_nonneg|]. split.
  - intros n v Hn Hv.
    assert (v ∈ omap numeralValue (preorder a)) as Hin
      by (apply list_elem_of_omap; eauto).
    revert Hin. generalize (omap numeralValue (preorder a)). intros l.
    induction l as [|x l IHl]; [by intros ?%elem_of_nil|].
    intros [->|Hin]%elem_of_cons; cbn; [lia|]. specialize (IHl Hin). lia.
  - assert (∀ l : list Z, foldr Z.max 0 l = 0 ∨ foldr Z.max 0 l ∈ l) as Hmax.
    { intros l. induction l as [|x l IHl]; [by left|]. cbn.
      destruct (Z.max_spec x (foldr Z.max 0 l)) as [[? ->]|[? ->]].
      - destruct IHl as [IHl|IHl]; [by left|]. right. by right.
      - right. left. }
    destruct (Hmax (omap numeralValue (preorder a))) as [?|Hin]; [by left|].
    right. apply list_elem_of_omap in Hin as (n & Hn & Hv). eauto.
Qed.

Lemma MaxNumeral_largest_witness :
  ∃ m, MaxNumeral MoreSamples.big = Ok m ∧ 0 ≤ m ∧
       (∀ n v, n ∈ preorder MoreSamples.big → numeralValue n = Some v → v ≤ m) ∧
       (m = 0 ∨ ∃ n, n ∈ preorder MoreSamples.big ∧ numeralValue n = Some m).
Proof. apply (MaxNumeral_largest MoreSamples.big). reflexivity. Defined.

(** X8: [MaxNumeral] panics exactly when some numeral node of the tree,
    wherever it stands, carries no integer. *)
Theorem MaxNumeral_panics (a : ASTNode) :
  MaxNumeral a = Abort (Panic "interface conversion: not an int") ↔
  ∃ n, n ∈ preorder a ∧ Type_ n = NumeralType ∧ ∀ v, Value n ≠ IntValue v.
Proof.
  rewrite MaxNumeral_preorder.
  destruct (forallb countable_numeral (preorder a)) eqn:Hall.
  - split; [done|]. intros (n & Hn & Hty & Hval).
    rewrite forallb_forall in Hall. apply list_elem_of_In, Hall in Hn.
    unfold countable_numeral in Hn. rewrite Hty in Hn.
    destruct (Value n) as [| |v]; [done..|]. by destruct (Hval v).
  - split; [intros _|done].
    assert (¬ Forall (λ n, countable_numeral n = true) (preorder a)) as Hnot.
    { rewrite Forall_forall. intros Hf.
      assert (forallb countable_numeral (preorder a) = true); [|congruence].
      apply forallb_forall. intros n Hn. by apply Hf, list_elem_of_In. }
    apply not_Forall_Exists in Hnot; [|apply _].
    apply Exists_exists in Hnot as (n & Hn & Hbad).
    exists n. split; [done|]. cbn in Hbad. unfold countable_numeral in Hbad.
    destruct (Type_ n); try done. split; [done|]. intros v Hv. by rewrite Hv in Hbad.
Qed.

(** ** The expression lowerer and the substitution map *)

Lemma variableNames_child (ty : ASTNodeType) (val : payload) (txt : string)
    (pos : position) (kids : list ASTNode) (k : ASTNode) (x : string) :
  k ∈ kids → x ∈ variableNames k → x ∈ variableNames (Node ty val txt pos kids).
Proof.
  unfold variableNames. rewrite !list_elem_of_omap.
  intros Hk (n & Hn & Hx). exists n. split; [|done].
  cbn [preorder]. right. apply list_elem_of_In, in_flat_map. exists k.
  by rewrite <- !list_elem_of_In.
Qed.

(** X9: the lowering of a tree reads the substitution map only at the
    names of the tree's variable nodes: two maps that agree on those names
    give the same text, or the same abort. *)
Theorem toVerilogExpr_reads_variables (a : ASTNode) (p2v p2v' : gmap string string) :
  (∀ x, x ∈ variableNames a → p2v !! x = p2v' !! x) →
  toVerilogExpr a p2v = toVerilogExpr a p2v'.
Proof.
  induction a as [ty val txt pos kids IH] using ASTNode_tree_ind.
  intros Hagree.
  assert (∀ k, k ∈ kids → toVerilogExpr k p2v = toVerilogExpr k p2v') as Hkid.
  { intros k Hk. rewrite Forall_forall in IH. apply (IH k Hk).
    intros x Hx. apply Hagree. by eapply variableNames_child. }
  clear IH.
  destruct ty; cbn [toVerilogExpr]; try done.
  - (* variable *)
    unfold valueString. cbn [Value]. destruct val as [|x|]; try done.
    cbn [mbind res_bind]. rewrite Hagree; [done|].
    unfold variableNames. apply list_elem_of_omap.
    eexists. split; [left|]. done.
  - destruct kids as [|k0 ?]; [done|]. by rewrite (Hkid k0) by set_solver.
  - destruct kids as [|k0 [|k1 ?]]; [done| |].
    + apply Hkid. set_solver.
    + rewrite (Hkid k0) by set_solver. destruct (toVerilogExpr k0 p2v'); [|done].
      cbn [mbind res_bind]. by rewrite (Hkid k1) by set_solver.
  - destruct kids as [|k0 [|k1 [|k2 ?]]]; [done| | |].
    + apply Hkid. set_solver.
    + rewrite (Hkid k0) by set_solver. destruct (toVerilogExpr k0 p2v'); [|done].
      cbn [mbind res_bind]. by rewrite (Hkid k1) by set_solver.
    + rewrite (Hkid k0) by set_solver. destruct (toVerilogExpr k0 p2v'); [|done].
      cbn [mbind res_bind]. rewrite (Hkid k1) by set_solver.
      destruct (toVerilogExpr k1 p2v'); [|done].
      cbn [mbind res_bind]. by rewrite (Hkid k2) by set_solver.
  - destruct kids as [|k0 [|k1 [|k2 ?]]]; [done| | |].
    + apply Hkid. set_solver.
    + rewrite (Hkid k0) by set_solver. destruct (toVerilogExpr k0 p2v'); [|done].
      cbn [mbind res_bind]. by rewrite (Hkid k1) by set_solver.
    + rewrite (Hkid k0) by set_solver. destruct (toVerilogExpr k0 p2v'); [|done].
      cbn [mbind res_bind]. rewrite (Hkid k1) by set_solver.
      destruct (toVerilogExpr k1 p2v'); [|done].
      cbn [mbind res_bind]. by rewrite (Hkid k2) by set_solver.
  - destruct kids as [|k0 [|k1 [|k2 ?]]]; [done| | |].
    + by rewrite (Hkid k0) by set_solver.
    + rewrite (Hkid k0) by set_solver. destruct (toVerilogExpr k0 p2v'); [|done].
      cbn [mbind res_bind]. by rewrite (Hkid k1) by set_solver.
    + rewrite (Hkid k0) by set_solver. destruct (toVerilogExpr k0 p2v'); [|done].
      cbn [mbind res_bind]. rewrite (Hkid k1) by set_solver.
      destruct (toVerilogExpr k1 p2v'); [|done].
      cbn [mbind res_bind]. by rewrite (Hkid k2) by set_solver.
  - destruct kids as [|k0 ?]; [done|]. apply Hkid. set_solver.
  - destruct kids as [|k0 ?]; [done|]. apply Hkid. set_solver.
Qed.

Lemma toVerilogExpr_reads_variables_witness :
  toVerilogExpr MoreSamples.x_lt_y (<[ "X" := "$A" ]> (<[ "Y" := "$B" ]> ∅))
  = toVerilogExpr MoreSamples.x_lt_y
      (<[ "Z" := "$C" ]> (<[ "Y" := "$B" ]> (<[ "X" := "$A" ]> ∅))).
Proof.
  apply (toVerilogExpr_reads_variables MoreSamples.x_lt_y).
  intros x Hx. vm_compute in Hx.
  apply elem_of_cons in Hx as [->|Hx]; [reflexivity|].
  apply elem_of_cons in Hx as [->|Hx]; [reflexivity|].
  by apply elem_of_nil in Hx.
Defined.

(** X10: in the map a clause's head builds, a variable node lowers to the
    identifier of the first head position that carries its name, and ends
    the run in the fatal branch of the lowerer when no head argument
    carries it. *)
Theorem toVerilogExpr_head_variable
    (c : ASTNode) (pArgs vArgs dups : list string) (p2v : gmap string string)
    (n : ASTNode) (x : string) :
  args c = Ok (pArgs, vArgs) →
  bind_loop 0 pArgs vArgs [] ∅ = Ok (dups, p2v) →
  Type_ n = VariableType → Value n = StringValue x →
  (∀ k, firstAt pArgs x k →
     ∃ v, numToVerVar (Z.of_nat k) = Ok v ∧ toVerilogExpr n p2v = Ok v) ∧
  (x ∉ pArgs →
     toVerilogExpr n p2v =
       Abort (Fatalf "Internal error: Failed to convert variable %s from Prolog to Verilog"
                     [StrArg x])).
Proof.
  intros Hargs Hbind Hty Hval.
  destruct (args_Ok _ _ _ Hargs) as [Hlen Hnum].
  destruct (bind_loop_Ok _ _ _ _ _ _ _ Hbind) as (_ & _ & _ & Hfirst & Hnone & _).
  assert (toVerilogExpr n p2v =
               match p2v !! x with
               | Some v => Ok v
               | None =>
                   Abort (Fatalf
                     "Internal error: Failed to convert variable %s from Prolog to Verilog"
                     [StrArg x])
               end) as Hlower.
  { destruct n as [ty val txt pos kids]. cbn in Hty, Hval. subst ty val. done. }
  split.
  - intros k Hk. destruct (firstAt_lookup _ _ _ Hk) as [Hk' _].
    destruct (lookup_lt_is_Some_2 vArgs k) as [v Hv].
    { rewrite Hlen. by eapply lookup_lt_Some. }
    exists v. split; [by apply Hnum|].
    rewrite Hlower, (Hfirst x k) by (done || apply lookup_empty). cbn. by rewrite Hv.
  - intros Hx. rewrite Hlower, Hnone; [done|apply lookup_empty|done].
Qed.

Lemma toVerilogExpr_head_variable_witness :
  (∀ k, firstAt ["X"] "Y" k →
     ∃ v, numToVerVar (Z.of_nat k) = Ok v
          ∧ toVerilogExpr (Samples.variable "Y") (<[ "X" := "$A" ]> ∅) = Ok v) ∧
  ("Y" ∉ ["X"] →
     toVerilogExpr (Samples.variable "Y") (<[ "X" := "$A" ]> ∅) =
       Abort (Fatalf "Internal error: Failed to convert variable %s from Prolog to Verilog"
                     [StrArg "Y"])).
Proof.
  apply (toVerilogExpr_head_variable MoreSamples.free ["X"] ["$A"] []
           (<[ "X" := "$A" ]> ∅) (Samples.variable "Y") "Y"); reflexivity.
Defined.

(** X11: the map a clause's head builds never gives two argument texts the
    same identifier. *)
Theorem bind_loop_injective
    (c : ASTNode) (pArgs vArgs dups : list string) (p2v : gmap string string)
    (x y vx vy : string) :
  args c = Ok (pArgs, vArgs) →
  bind_loop 0 pArgs vArgs [] ∅ = Ok (dups, p2v) →
  x ≠ y → p2v !! x = Some vx → p2v !! y = Some vy → vx ≠ vy.
Proof.
  intros Hargs Hbind Hne Hx Hy <-. apply Hne. clear Hne. rename vx into v.
  destruct (args_Ok _ _ _ Hargs) as [Hlen Hnum].
  destruct (bind_loop_Ok _ _ _ _ _ _ _ Hbind) as (_ & _ & _ & Hfirst & Hnone & _).
  assert (∀ z, p2v !! z = Some v →
               ∃ k, pArgs !! k = Some z ∧ numToVerVar (Z.of_nat k) = Ok v) as Hpos.
  { intros z Hz. destruct (decide (z ∈ pArgs)) as [Hin|Hout].
    - apply firstAt_elem_of in Hin as [k Hk]. exists k.
      split; [by apply firstAt_lookup in Hk as [? _]|].
      apply Hnum. rewrite <- Hz. symmetry. by apply (Hfirst z k); [apply lookup_empty|].
    - rewrite Hnone in Hz; [done|apply lookup_empty|done]. }
  destruct (Hpos x Hx) as (kx & Hkx & Hvx). destruct (Hpos y Hy) as (ky & Hky & Hvy).
  assert (kx = ky) as -> by (apply Nat2Z.inj; by eapply numToVerVar_inj).
  congruence.
Qed.

Lemma bind_loop_injective_witness : "$A" ≠ "$B".
Proof.
  apply (bind_loop_injective ClauseSamples.same ["k"; "7"; "k"; "7"]
           ["$A"; "$B"; "$C"; "$D"] ["$C == $A"; "$D == $B"]
           (<[ "7" := "$B" ]> (<[ "k" := "$A" ]> ∅)) "k" "7").
  - reflexivity.
  - reflexivity.
  - discriminate.
  - reflexivity.
  - reflexivity.
Defined.

(** ** The size of a clause's signal *)

Lemma bind_loop_count (vArgs pArgs : list string) :
  ∀ (i : nat) (valid : list string) (p2v : gmap string string)
    (valid' : list string) (p2v' : gmap string string),
  bind_loop i pArgs vArgs valid p2v = Ok (valid', p2v') →
  (length valid' + size p2v' = length valid + size p2v + length pArgs)%nat ∧
  dom p2v' = dom p2v ∪ list_to_set pArgs.
Proof.
  induction pArgs as [|p pArgs IH]; intros i valid p2v valid' p2v'.
  { cbn. intros [= <- <-]. split; [lia|set_solver]. }
  cbn [bind_loop]. destruct (p2v !! p) as [v0|] eqn:Hp.
  - intros H. apply res_bind_Ok in H as (vi & _ & H).
    destruct (IH _ _ _ _ _ H) as [Hcount Hdom]. split.
    + rewrite length_app in Hcount. cbn in *. lia.
    + rewrite Hdom. cbn [list_to_set].
      assert (p ∈ dom p2v) by (apply elem_of_dom; eauto). set_solver.
  - intros H. apply res_bind_Ok in H as (vi & _ & H).
    destruct (IH _ _ _ _ _ H) as [Hcount Hdom]. split.
    + rewrite map_size_insert_None in Hcount by done. cbn. lia.
    + rewrite Hdom, dom_insert_L. cbn [list_to_set]. set_solver.
Qed.

Lemma classify_loop_count (vArgs pArgs : list string) :
  ∀ (i : nat) (lits : list string),
  classify_loop i pArgs vArgs [] = Ok lits →
  length lits = length (filter (λ a, literalArgument a = true) pArgs).
Proof.
  induction pArgs as [|a pArgs IH]; intros i lits.
  { cbn. by intros [= <-]. }
  cbn [classify_loop]. destruct a as [|b a']; [done|].
  rewrite filter_cons. cbn zeta.
  assert (literalArgument (String b a')
          = unicode.IsLower (rune b) || unicode.IsDigit (rune b)) as Hlit by done.
  destruct (unicode.IsLower (rune b)) eqn:Hl; [|destruct (unicode.IsDigit (rune b)) eqn:Hd;
    [|destruct (unicode.IsUpper (rune b)); [|done]]].
  - destruct (index vArgs i) as [v|]; [|done]. cbn [mbind res_bind app].
    rewrite classify_loop_acc. intros (lits' & Hlits' & [= <-])%res_bind_Ok.
    rewrite decide_True by done. cbn. by rewrite (IH _ _ Hlits').
  - destruct (index vArgs i) as [v|]; [|done]. cbn [mbind res_bind app].
    rewrite classify_loop_acc. intros (lits' & Hlits' & [= <-])%res_bind_Ok.
    rewrite decide_True by done. cbn. by rewrite (IH _ _ Hlits').
  - rewrite decide_False by (by rewrite Hlit). apply IH.
Qed.

(** X12: the signal of a clause is never empty: it has one bit for each
    head position that repeats an earlier text, one for each head argument
    that is a symbolic constant or a numeral, and one for each body
    predicate, and a single bit when there is none of these. *)
Theorem clauseValid_length (c : ASTNode) (pArgs vArgs valid : list string) :
  args c = Ok (pArgs, vArgs) →
  clauseValid c = Ok valid →
  length valid =
    Nat.max 1 (length pArgs - size (list_to_set pArgs : gset string)
               + length (filter (λ a, literalArgument a = true) pArgs)
               + length (tail (Children c))).
Proof.
  intros Hargs Hvalid.
  destruct (clauseValid_Ok _ _ Hvalid)
    as (pArgs' & vArgs' & dups & p2v & more & Hargs' & Hbind & Hmore & ->).
  rewrite Hargs in Hargs'. injection Hargs' as <- <-.
  destruct (bind_loop_count _ _ _ _ _ _ _ Hbind) as [Hcount Hdom].
  rewrite map_size_empty, dom_empty_L, (left_id_L ∅ (∪)) in *.
  cbn [length] in Hcount.
  assert (size p2v = size (list_to_set pArgs : gset string)) as Hsize
    by (by rewrite <- Hdom, size_dom).
  destruct (process_Ok _ _ _ Hmore)
    as (pArgs' & vArgs' & lits & es & Hargs' & Hlits & Hes & ->).
  rewrite Hargs in Hargs'. injection Hargs' as <- <-.
  apply classify_loop_count in Hlits. apply Forall2_length in Hes.
  destruct (decide _) as [Hnil|Hnn]; rewrite !length_app in *; cbn [length] in *; lia.
Qed.

Lemma clauseValid_length_witness :
  length ["$C == $A"; "$D == $B"; "$A == `k"; "$B == 7"; "$C == `k"; "$D == 7"] =
    Nat.max 1 (length ["k"; "7"; "k"; "7"]
               - size (list_to_set ["k"; "7"; "k"; "7"] : gset string)
               + length (filter (λ a, literalArgument a = true) ["k"; "7"; "k"; "7"])
               + length (tail (Children ClauseSamples.same))).
Proof.
  apply (clauseValid_length ClauseSamples.same ["k"; "7"; "k"; "7"]
           ["$A"; "$B"; "$C"; "$D"]).
  - reflexivity.
  - vm_compute. reflexivity.
Defined.

(** ** The text of a clause *)

(** X13: a clause is written whole or not at all: when its constraints are
    computed, [writeClauseBody] writes the declaration of the signal, as
    wide as there are constraints, and one assignment per constraint, bit k
    getting the k-th constraint; when their computation aborts, it has
    written nothing.  (The clause number is a slice index, so adding one to
    it does not overflow.) *)
Theorem writeClauseBody_text (c : ASTNode) (p : Parameters) (nm : string) (cNum : Z) :
  0 ≤ cNum < 2 ^ 63 - 1 →
  writeClauseBody c p nm cNum =
    match clauseValid c with
    | Ok valid =>
        MkW (wireLine cNum (length valid)
             +:+ String.concat "" (imap (assignLine cNum) valid)) (Ok tt)
    | Abort e => MkW "" (Abort e)
    end.
Proof.
  intros _. unfold writeClauseBody. destruct (clauseValid c) as [valid|e]; [|done].
  unfold mbind, W_bind, lift, Fprint, wireLine. cbn [outcome written].
  rewrite assign_loop_text. cbn [outcome written]. f_equal; string_eq.
Qed.

Lemma writeClauseBody_text_witness :
  writeClauseBody ClauseSamples.same ClauseSamples.params "same" 3 =
    match clauseValid ClauseSamples.same with
    | Ok valid =>
        MkW (wireLine 3 (length valid)
             +:+ String.concat "" (imap (assignLine 3) valid)) (Ok tt)
    | Abort e => MkW "" (Abort e)
    end.
Proof. apply (writeClauseBody_text ClauseSamples.same ClauseSamples.params "same" 3). lia. Defined.

(** ** The header of a module *)

Lemma header_names_text (vArgs : list string) :
  ∀ i : nat,
  header_names i vArgs =
    MkW (match vArgs with
         | [] => ""
         | _ => (if decide (0 < i)%nat then ", " else "") +:+ String.concat ", " vArgs
         end) (Ok tt).
Proof.
  induction vArgs as [|a vArgs IH]; intros i; [done|].
  cbn [header_names]. rewrite (IH (S i)).
  unfold mbind, W_bind, Fprint, mret, W_ret.
  destruct (decide (0 < i)%nat); cbn [outcome written]; f_equal.
  - destruct vArgs as [|a' vArgs]; [cbn; string_eq|].
    destruct (decide (0 < S i)%nat); [|lia]. cbn [String.concat]. string_eq.
  - destruct vArgs as [|a' vArgs]; [cbn; string_eq|].
    destruct (decide (0 < S i)%nat); [|lia]. cbn [String.concat]. string_eq.
Qed.

Lemma header_inputs_text (decl : string → string) (vArgs : list string) :
  header_inputs decl vArgs = MkW (String.concat "" (decl <$> vArgs)) (Ok tt).
Proof.
  induction vArgs as [|a vArgs IH]; [done|].
  cbn [header_inputs]. rewrite IH, fmap_cons, concat_empty_cons.
  unfold mbind, W_bind, Fprint. cbn [outcome written]. f_equal.
Qed.

(** X14: the header of a module is taken from the first clause of the
    group alone.  For an empty group, or when the arguments of the first
    clause abort, nothing is written; otherwise the header never aborts,
    and its port list is the identifiers joined by commas followed by
    [, $valid], so that a predicate without arguments gets the port list
    [(, $valid)]. *)
Theorem writeClauseGroupHeader_text
    (a : ASTNode) (p : Parameters) (nm : string) (cs : list ASTNode) :
  writeClauseGroupHeader a p nm cs =
    match cs with
    | [] => MkW "" (Abort (Panic "index out of range"))
    | c0 :: _ =>
        match args c0 with
        | Abort e => MkW "" (Abort e)
        | Ok (_, vArgs) =>
            MkW ("// Define " +:+ nm +:+ "." +:+ LF
                 +:+ "module \" +:+ nm +:+ " (" +:+ String.concat ", " vArgs
                 +:+ ", $valid);" +:+ LF
                 +:+ String.concat ""
                       ((λ v, if decide (IntBits p = 1)
                              then "  input " +:+ v +:+ ";" +:+ LF
                              else "  input [" +:+ pretty ((IntBits p - 1) `mod` 2 ^ 64)
                                   +:+ ":0] " +:+ v +:+ ";" +:+ LF) <$> vArgs)
                 +:+ "  output $valid;" +:+ LF) (Ok tt)
        end
    end.
Proof.
  unfold writeClauseGroupHeader. destruct cs as [|c0 cs]; [done|].
  cbn [index lookup list_lookup]. unfold mbind at 1, W_bind at 1, lift at 1.
  cbn [outcome written].
  destruct (args c0) as [[pArgs vArgs]|e]; [|reflexivity].
  unfold mbind, W_bind, lift, Fprint, Fprintln. cbn [outcome written].
  rewrite header_names_text. cbn [outcome written].
  destruct (decide (IntBits p = 1)) as [H1|H1]; rewrite header_inputs_text;
    cbn [outcome written]; f_equal;
    (destruct vArgs as [|v vArgs]; [string_eq|]);
    (destruct (decide (0 < 0)%nat); [lia|]); string_eq.
Qed.

(** ** Where an abort leaves the text *)

Lemma writeClauseBody_Abort (c : ASTNode) (p : Parameters) (nm : string) (cNum : Z)
    (e : failure) :
  clauseValid c = Abort e → writeClauseBody c p nm cNum = MkW "" (Abort e).
Proof. intros H. unfold writeClauseBody. by rewrite H. Qed.

Lemma writeClauseBody_returns (c : ASTNode) (p : Parameters) (nm : string) (i : nat)
    (valid : list string) :
  clauseValid c = Ok valid → outcome (writeClauseBody c p nm (Z.of_nat i)) = Ok tt.
Proof.
  intros H. destruct (writeClauseBody_declares c p nm i valid H) as [assigns ->]. done.
Qed.

Lemma bodies_loop_stops (p : Parameters) (nm : string) (pre : list ASTNode)
    (c : ASTNode) (post : list ASTNode) (e : failure) :
  Forall (λ c', ∃ valid, clauseValid c' = Ok valid) pre →
  clauseValid c = Abort e →
  ∀ i : nat,
  bodies_loop p nm i (pre ++ c :: post) = MkW (bodiesText p nm i pre) (Abort e).
Proof.
  intros Hpre Hc. induction Hpre as [|c' pre [valid Hc'] _ IH]; intros i.
  - cbn [app bodies_loop bodiesText].
    rewrite (writeClauseBody_Abort _ _ _ _ _ Hc). reflexivity.
  - cbn [app bodies_loop bodiesText].
    rewrite (W_bind_Ok _ _ tt) by (by eapply writeClauseBody_returns).
    by rewrite IH.
Qed.

(** X15: a group is written up to its first clause that aborts.  When the
    header is written and the clauses before [c] compile, the abort of [c]
    is the outcome of the group, and the text holds the header and the
    clauses before [c] and nothing else: no part of [c], no later clause,
    no assignment of [$valid] and no [endmodule]. *)
Theorem writeClauseGroup_stops_at_abort
    (a : ASTNode) (p : Parameters) (nm : string)
    (pre : list ASTNode) (c : ASTNode) (post : list ASTNode)
    (header : string) (e : failure) :
  writeClauseGroupHeader a p nm (pre ++ c :: post) = MkW header (Ok tt) →
  Forall (λ c', ∃ valid, clauseValid c' = Ok valid) pre →
  clauseValid c = Abort e →
  writeClauseGroup a p nm (pre ++ c :: post)
  = MkW (header +:+ bodiesText p nm 0 pre) (Abort e).
Proof.
  intros Hheader Hpre Hc. unfold writeClauseGroup.
  rewrite Hheader, (bodies_loop_stops _ _ _ _ _ _ Hpre Hc). reflexivity.
Qed.

Lemma writeClauseGroup_stops_at_abort_witness :
  writeClauseGroup Samples.foo_a MoreSamples.ten_symbols "mixed"
    ([ClauseSamples.stupid] ++ MoreSamples.free :: [ClauseSamples.lt])
  = MkW (written (writeClauseGroupHeader Samples.foo_a MoreSamples.ten_symbols "mixed"
                    [ClauseSamples.stupid; MoreSamples.free; ClauseSamples.lt])
         +:+ bodiesText MoreSamples.ten_symbols "mixed" 0 [ClauseSamples.stupid])
        (Abort (Fatalf "Internal error: Failed to convert variable %s from Prolog to Verilog"
                  [StrArg "Y"])).
Proof.
  apply (writeClauseGroup_stops_at_abort Samples.foo_a MoreSamples.ten_symbols "mixed"
           [ClauseSamples.stupid] MoreSamples.free [ClauseSamples.lt]).
  - vm_compute. reflexivity.
  - constructor; [|constructor]. exists ["1'b1"]. vm_compute. reflexivity.
  - vm_compute. reflexivity.
Defined.

Lemma groups_loop_stops (a : ASTNode) (p : Parameters)
    (pre : list (string * list ASTNode)) (nm : string) (cs : list ASTNode)
    (post : list (string * list ASTNode)) (e : failure) :
  Forall (λ g, outcome (writeClauseGroup a p g.1 g.2) = Ok tt) pre →
  outcome (writeClauseGroup a p nm cs) = Abort e →
  groups_loop a p (pre ++ (nm, cs) :: post)
  = MkW (modulesText a p pre +:+ LF +:+ written (writeClauseGroup a p nm cs)) (Abort e).
Proof.
  intros Hpre Hg. induction Hpre as [|[nm' cs'] pre Hg' _ IH].
  - cbn [app groups_loop]. unfold modulesText. cbn [fmap list_fmap String.concat].
    unfold mbind at 1, W_bind at 1, Fprintln, Fprint. cbn [outcome written].
    rewrite (W_bind_Abort _ _ e) by done. cbn [written]. f_equal.
  - cbn [fst snd] in Hg'. cbn [app groups_loop]. rewrite IH.
    unfold modulesText. rewrite fmap_cons, concat_empty_cons. cbn [fst snd].
    unfold mbind at 1, W_bind at 1, Fprintln, Fprint. cbn [outcome written].
    rewrite (W_bind_Ok _ _ tt) by done. cbn [outcome written]. f_equal; string_eq.
Qed.

(** X16: a run stops at the first group that aborts.  Whatever the order
    in which the groups are visited, when the groups before [nm] are
    written and the group [nm] aborts, the run ends in that abort and its
    text is the preamble, the modules of the groups before, an empty line
    and the part of the module the aborting group had written; no later
    group leaves a trace. *)
Theorem WriteVerilogIn_stops_at_abort
    (a : ASTNode) (p : Parameters)
    (pre : list (string * list ASTNode)) (nm : string) (cs : list ASTNode)
    (post : list (string * list ASTNode)) (e : failure) :
  Forall (λ g, outcome (writeClauseGroup a p g.1 g.2) = Ok tt) pre →
  outcome (writeClauseGroup a p nm cs) = Abort e →
  WriteVerilogIn (pre ++ (nm, cs) :: post) a p
  = MkW (preamble a p +:+ modulesText a p pre +:+ LF
         +:+ written (writeClauseGroup a p nm cs)) (Abort e).
Proof.
  intros Hpre Hg. unfold preamble, WriteVerilogIn.
  rewrite (groups_loop_stops _ _ _ _ _ post _ Hpre Hg).
  cbn [groups_loop]. unfold mbind, W_bind, Fprintln, Fprint, mret, W_ret.
  cbn [outcome written]. rewrite writeSymbols_outcome. cbn [outcome written].
  f_equal; string_eq.
Qed.

Lemma WriteVerilogIn_stops_at_abort_witness :
  WriteVerilogIn ([("stupid", [ClauseSamples.stupid])]
                  ++ ("free", [MoreSamples.free]) :: [("lt", [ClauseSamples.lt])])
    Samples.foo_a MoreSamples.ten_symbols
  = MkW (preamble Samples.foo_a MoreSamples.ten_symbols
         +:+ modulesText Samples.foo_a MoreSamples.ten_symbols
               [("stupid", [ClauseSamples.stupid])]
         +:+ LF
         +:+ written (writeClauseGroup Samples.foo_a MoreSamples.ten_symbols "free"
                        [MoreSamples.free]))
        (Abort (Fatalf "Internal error: Failed to convert variable %s from Prolog to Verilog"
                  [StrArg "Y"])).
Proof.
  apply (WriteVerilogIn_stops_at_abort Samples.foo_a MoreSamples.ten_symbols
           [("stupid", [ClauseSamples.stupid])] "free" [MoreSamples.free]
           [("lt", [ClauseSamples.lt])]).
  - constructor; [|constructor]. vm_compute. reflexivity.
  - vm_compute. reflexivity.
Defined.

(** ** The table of symbols *)

Lemma symbols_loop_text (p : Parameters) (digs : Z) (syms : list string) :
  ∀ i : nat,
  symbols_loop p digs i syms =
    MkW (String.concat "" (imap (λ k s, defineLine p digs (i + k) s) syms)) (Ok tt).
Proof.
  induction syms as [|s syms IH]; intros i; [done|].
  cbn [symbols_loop]. rewrite (IH (S i)), imap_cons, concat_empty_cons.
  unfold mbind, W_bind, Fprint. cbn [outcome written]. f_equal.
  rewrite Nat.add_0_r. unfold defineLine at 2.
  rewrite (imap_ext (_ ∘ S) (λ k s0, defineLine p digs (S i + k) s0));
    [|by intros k x _; cbn; rewrite Nat.add_succ_r].
  string_eq.
Qed.

(** X17: [writeSymbols] never aborts and does not look at the tree: after
    its comment line it writes one definition per symbol of the table, in
    the order of the table, the symbol at position [i] getting the number
    [i], counted from zero.  (For symbol names in ASCII, where the padding
    of a name by bytes is [fmt]'s padding by runes.) *)
Theorem writeSymbols_text (a : ASTNode) (p : Parameters) :
  Forall (λ s, asciiOnly s = true) (IntToSym p) →
  writeSymbols a p =
    MkW ("// Define all of the symbols used in this program." +:+ LF
         +:+ String.concat "" (imap (defineLine p (symbolDigits p)) (IntToSym p)))
        (Ok tt).
Proof.
  intros _. unfold writeSymbols. cbn zeta. fold (symbolDigits p).
  rewrite symbols_loop_text. unfold mbind, W_bind, Fprintln, Fprint.
  cbn [outcome written]. f_equal; string_eq.
Qed.

Lemma writeSymbols_text_witness :
  writeSymbols Samples.foo_a MoreSamples.ten_symbols =
    MkW ("// Define all of the symbols used in this program." +:+ LF
         +:+ String.concat ""
               (imap (defineLine MoreSamples.ten_symbols
                        (symbolDigits MoreSamples.ten_symbols))
                     (IntToSym MoreSamples.ten_symbols)))
        (Ok tt).
Proof.
  apply (writeSymbols_text Samples.foo_a MoreSamples.ten_symbols).
  repeat (constructor; [reflexivity|]). constructor.
Defined.

Lemma length_app_string (s1 s2 : string) :
  String.length (s1 +:+ s2) = (String.length s1 + String.length s2)%nat.
Proof.
  induction s1 as [|c s1 IH]; [done|].
  change (S (String.length (s1 +:+ s2)) = S (String.length s1 + String.length s2)).
  by rewrite IH.
Qed.

Lemma spaces_length (n : Z) : String.length (spaces n) = Z.to_nat n.
Proof.
  unfold spaces. induction (Z.to_nat n) as [|k IH]; [done|].
  cbn [replicate]. by rewrite concat_empty_cons, length_app_string, IH.
Qed.

Lemma padLeft_length (wid : Z) (s : string) :
  wid ≤ 1000000 →
  String.length (padLeft wid s) = Nat.max (Z.to_nat wid) (String.length s).
Proof.
  intros Hwid. unfold padLeft, starWidth. rewrite decide_True by done.
  rewrite !length_app_string, spaces_length. cbn [String.length]. lia.
Qed.

(** The loop of [writeSymbols] counts the decimal digits of [n]. *)
Lemma digits_loop_bounds (fuel : nat) :
  ∀ n digs : Z, 0 ≤ n ≤ Z.of_nat fuel →
  ∃ d : nat,
    digits_loop fuel n digs = digs + Z.of_nat d ∧
    n < 10 ^ Z.of_nat d ∧
    (n = 0 → d = 0%nat) ∧
    (0 < n → 10 ^ (Z.of_nat d - 1) ≤ n).
Proof.
  induction fuel as [|fuel IH]; intros n digs Hn.
  { exists 0%nat. cbn. repeat split; lia. }
  cbn [digits_loop]. destruct (decide (0 < n)) as [Hpos|Hzero].
  - rewrite Z.quot_div_nonneg by lia.
    pose proof (Z.div_mod n 10 ltac:(lia)) as Hdiv.
    pose proof (Z.mod_pos_bound n 10 ltac:(lia)) as Hmod.
    destruct (IH (n `div` 10) (digs + 1)) as (d & -> & Hhi & Hz & Hlo); [lia|].
    exists (S d). rewrite Nat2Z.inj_succ, Z.pow_succ_r by lia.
    replace (Z.succ (Z.of_nat d) - 1) with (Z.of_nat d) by lia.
    repeat split; [lia|lia|lia|]. intros _.
    destruct (decide (n `div` 10 = 0)) as [H0|H0].
    + rewrite (Hz H0). cbn. lia.
    + destruct d as [|d]; [cbn in Hhi; lia|].
      rewrite Nat2Z.inj_succ in *. rewrite Z.pow_succ_r by lia.
      replace (Z.succ (Z.of_nat d) - 1) with (Z.of_nat d) in Hlo by lia. lia.
  - exists 0%nat. repeat split; cbn; lia.
Qed.

Lemma N_div_ten (x P : N) :
  ((x < 10 * P → x `div` 10 < P) ∧ (10 * P ≤ x → P ≤ x `div` 10))%N.
Proof.
  pose proof (N.div_mod x 10 ltac:(lia)) as Hdiv.
  pose proof (N.mod_lt x 10 ltac:(lia)) as Hmod.
  revert Hdiv Hmod. generalize (x `div` 10)%N (x `mod` 10)%N. intros q r. lia.
Qed.

Lemma pretty_N_go_at_most (k : nat) :
  ∀ (x : N) (s : string), (0 < x < 10 ^ N.of_nat k)%N →
  (String.length (pretty_N_go x s) ≤ k + String.length s)%nat.
Proof.
  induction k as [|k IH]; intros x s [Hpos Hhi].
  { cbn in Hhi. lia. }
  rewrite pretty_N_go_step by done.
  rewrite Nat2N.inj_succ, N.pow_succ_r' in Hhi.
  apply N_div_ten in Hhi.
  destruct (decide (x `div` 10 = 0)%N) as [->|H0].
  - rewrite pretty_N_go_0. cbn. lia.
  - etrans; [apply IH; split; [by apply N.neq_0_lt_0|done]|]. cbn. lia.
Qed.

Lemma pretty_N_go_digits (k : nat) :
  ∀ (x : N) (s : string), (10 ^ N.of_nat k ≤ x < 10 ^ N.of_nat (S k))%N →
  String.length (pretty_N_go x s) = (S k + String.length s)%nat.
Proof.
  induction k as [|k IH]; intros x s [Hlo Hhi].
  { cbn in Hlo, Hhi. rewrite pretty_N_go_step by lia.
    rewrite N.div_small by lia. by rewrite pretty_N_go_0. }
  rewrite pretty_N_go_step
    by (assert (0 < 10 ^ N.of_nat (S k))%N by (apply N.neq_0_lt_0, N.pow_nonzero; lia); lia).
  rewrite (Nat2N.inj_succ (S k)), N.pow_succ_r' in Hhi.
  rewrite (Nat2N.inj_succ k), N.pow_succ_r' in Hlo.
  apply N_div_ten in Hhi, Hlo. rewrite IH by done. cbn. lia.
Qed.

Lemma pretty_Z_pos (q : positive) : pretty (Z.pos q) = pretty_N_go (N.pos q) "".
Proof. reflexivity. Qed.

Lemma pretty_Z_at_most (d : nat) (x : Z) :
  0 ≤ x < 10 ^ Z.of_nat d → (1 ≤ d)%nat → (String.length (pretty x) ≤ d)%nat.
Proof.
  intros [Hlo Hhi] Hd. destruct x as [|q|q]; [cbn; lia| |lia].
  rewrite pretty_Z_pos. etrans; [apply (pretty_N_go_at_most d)|cbn; lia].
  split; [lia|]. apply N2Z.inj_lt. by rewrite N2Z.inj_pow, nat_N_Z.
Qed.

Lemma pretty_Z_digits (d : nat) (x : Z) :
  10 ^ Z.of_nat d ≤ x < 10 ^ Z.of_nat (S d) → String.length (pretty x) = S d.
Proof.
  intros [Hlo Hhi].
  assert (0 < 10 ^ Z.of_nat d) by (apply Z.pow_pos_nonneg; lia).
  destruct x as [|q|q]; [lia| |lia].
  rewrite pretty_Z_pos, (pretty_N_go_digits d); [cbn; lia|].
  split.
  - apply N2Z.inj_le. by rewrite N2Z.inj_pow, nat_N_Z.
  - apply N2Z.inj_lt. by rewrite N2Z.inj_pow, nat_N_Z.
Qed.

(** X18: the numbers of the symbols are right-aligned in a column as wide
    as the largest of them: every number [writeSymbols] prints is padded
    to the number of decimal digits of the last one.  (A Go slice has fewer
    than [2 ^ 63] elements.) *)
Theorem writeSymbols_aligned (p : Parameters) (i : nat) :
  Z.of_nat (length (IntToSym p)) < 2 ^ 63 →
  (i < length (IntToSym p))%nat →
  String.length (padLeft (symbolDigits p) (pretty (Z.of_nat i)))
  = String.length (pretty (Z.of_nat (length (IntToSym p)) - 1)).
Proof.
  intros Hlen Hi. unfold symbolDigits. cbn zeta.
  set (n := Z.of_nat (length (IntToSym p)) - 1) in *.
  destruct (digits_loop_bounds (Z.to_nat n) n 0) as (d & -> & Hhi & Hz & Hlo); [lia|].
  rewrite Z.add_0_l.
  destruct (decide (n = 0)) as [Hn|Hn].
  - rewrite (Hz Hn), Hn. replace i with 0%nat by lia. reflexivity.
  - specialize (Hlo ltac:(lia)).
    destruct d as [|d]; [cbn in Hhi; lia|].
    replace (Z.of_nat (S d) - 1) with (Z.of_nat d) in Hlo by lia.
    assert (d < 19)%nat as Hd.
    { destruct (decide (d < 19)%nat) as [|Hbig]; [done|].
      assert (10 ^ 19 ≤ 10 ^ Z.of_nat d) by (apply Z.pow_le_mono_r; lia). lia. }
    rewrite padLeft_length by lia.
    rewrite (pretty_Z_digits d n) by done.
    pose proof (pretty_Z_at_most (S d) (Z.of_nat i) ltac:(lia) ltac:(lia)). lia.
Qed.

Lemma writeSymbols_aligned_witness :
  String.length (padLeft (symbolDigits MoreSamples.ten_symbols) (pretty (Z.of_nat 3)))
  = String.length (pretty (Z.of_nat (length (IntToSym MoreSamples.ten_symbols)) - 1)).
Proof.
  apply (writeSymbols_aligned MoreSamples.ten_symbols 3).
  - vm_compute. reflexivity.
  - vm_compute. lia.
Defined.

(** ** When a group is written to its end *)

Lemma W_bind_outcome {A B} (m : W A) (f : A → W B) :
  outcome (m ≫= f) =
    match outcome m with Ok a => outcome (f a) | Abort e => Abort e end.
Proof. unfold mbind, W_bind. by destruct (outcome m). Qed.

Lemma writeClauseGroupHeader_outcome
    (a : ASTNode) (p : Parameters) (nm : string) (cs : list ASTNode) :
  outcome (writeClauseGroupHeader a p nm cs) =
    match cs with
    | [] => Abort (Panic "index out of range")
    | c0 :: _ => match args c0 with Ok _ => Ok tt | Abort e => Abort e end
    end.
Proof.
  unfold writeClauseGroupHeader. destruct cs as [|c0 cs]; [done|].
  cbn [index lookup list_lookup]. unfold mbind at 1, W_bind at 1, lift at 1.
  cbn [outcome written].
  destruct (args c0) as [[pArgs vArgs]|e]; [|reflexivity].
  unfold mbind, W_bind, lift, Fprint, Fprintln. cbn [outcome written].
  rewrite header_names_text. cbn [outcome written].
  by destruct (decide (IntBits p = 1)); rewrite header_inputs_text.
Qed.

Lemma bodies_loop_outcome (p : Parameters) (nm : string) (cs : list ASTNode) :
  ∀ i : nat,
  outcome (bodies_loop p nm i cs) = Ok tt ↔
  Forall (λ c, ∃ valid, clauseValid c = Ok valid) cs.
Proof.
  induction cs as [|c cs IH]; intros i.
  { split; [constructor|done]. }
  cbn [bodies_loop]. rewrite W_bind_outcome, Forall_cons.
  destruct (clauseValid c) as [valid|e] eqn:Hc.
  - rewrite (writeClauseBody_returns _ _ _ _ _ Hc), IH. naive_solver.
  - rewrite (writeClauseBody_Abort _ _ _ _ _ Hc). cbn [outcome]. naive_solver.
Qed.

(** X19: a group is written to its [endmodule] exactly when it has a
    clause and the constraints of every clause of the group can be
    computed; nothing else makes [writeClauseGroup] abort. *)
Theorem writeClauseGroup_returns
    (a : ASTNode) (p : Parameters) (nm : string) (cs : list ASTNode) :
  outcome (writeClauseGroup a p nm cs) = Ok tt ↔
  cs ≠ [] ∧ Forall (λ c, ∃ valid, clauseValid c = Ok valid) cs.
Proof.
  unfold writeClauseGroup.
  rewrite W_bind_outcome, writeClauseGroupHeader_outcome.
  destruct cs as [|c0 cs]; [naive_solver|].
  destruct (args c0) as [r|e] eqn:Hargs.
  - rewrite W_bind_outcome.
    destruct (outcome (bodies_loop p nm 0 (c0 :: cs))) as [[]|e] eqn:Hbodies.
    + apply bodies_loop_outcome in Hbodies. split; [done|intros _].
      rewrite !W_bind_outcome, or_loop_written. reflexivity.
    + split; [done|]. intros [_ Hall].
      apply (bodies_loop_outcome p nm (c0 :: cs) 0) in Hall. congruence.
  - split; [done|]. intros [_ [[valid Hvalid] _]%Forall_cons].
    destruct (clauseValid_Ok _ _ Hvalid) as (pArgs & vArgs & _ & _ & _ & Hargs' & _).
    congruence.
Qed.
